(** * qoreCSS: the universal runtime module (index.js) and the build orchestrator

    A shallow embedding of [safeResolve] and [injectCss] from index.js,
    together with a model of the build orchestrator (scripts/build.js),
    and the properties the specification states about them. *)

From Stdlib Require Import ZArith Lia Ascii String.
From stdpp Require Import base option list strings gmap.


(** ** JavaScript string primitives used by index.js *)

Module JsString.

(** [s.includes(sub)] *)
Fixpoint includes (s sub : string) : bool :=
  String.prefix sub s ||
  match s with
  | EmptyString => false
  | String _ r => includes r sub
  end.

(** [s.endsWith(suf)] *)
Definition endsWith (s suf : string) : bool :=
  (String.length suf <=? String.length s)%nat &&
  String.eqb
    (String.substring (String.length s - String.length suf) (String.length suf) s)
    suf.

Definition lower_ascii (c : ascii) : ascii :=
  let n := Ascii.nat_of_ascii c in
  if ((65 <=? n) && (n <=? 90))%nat then Ascii.ascii_of_nat (n + 32) else c.

(** [s.toLowerCase()], on the ASCII range *)
Fixpoint toLowerCase (s : string) : string :=
  match s with
  | EmptyString => EmptyString
  | String c r => String (lower_ascii c) (toLowerCase r)
  end.

(** [s.split(sep)] for a one-character separator; the result is never empty *)
Fixpoint split (sep : ascii) (s : string) : list string :=
  match s with
  | EmptyString => [EmptyString]
  | String c r =>
      if Ascii.eqb c sep then EmptyString :: split sep r
      else match split sep r with
           | h :: t => String c h :: t
           | [] => [String c EmptyString]
           end
  end.

(** [arr.pop()]: the last element, [undefined] on an empty array *)
Definition pop (arr : list string) : option string := List.last (List.map Some arr) None.

(** [arr[0]] *)
Definition first (arr : list string) : option string := List.head arr.

(** [x || ''] for a string-or-undefined [x]: the empty string is falsy too *)
Definition or_empty (x : option string) : string :=
  match x with
  | Some s => s
  | None => EmptyString
  end.

(** [s.lastIndexOf(c)], -1 when [c] does not occur *)
Fixpoint lastIndexOf (c : ascii) (s : string) : Z :=
  match s with
  | EmptyString => (-1)%Z
  | String a r =>
      let i := lastIndexOf c r in
      if (0 <=? i)%Z then (i + 1)%Z
      else if Ascii.eqb a c then 0%Z else (-1)%Z
  end.

(** [s.slice(0, e)] for [0 <= e] *)
Definition slice0 (s : string) (e : Z) : string :=
  String.substring 0 (Z.to_nat e) s.

Definition is_hex (c : ascii) : bool :=
  let n := Ascii.nat_of_ascii c in
  ((48 <=? n) && (n <=? 57) || (97 <=? n) && (n <=? 102))%nat.

(** every character of [s] is in [[a-f0-9]] *)
Fixpoint all_hex (s : string) : bool :=
  match s with
  | EmptyString => true
  | String c r => is_hex c && all_hex r
  end.

(** the longest prefix of characters satisfying [p], and the rest *)
Fixpoint span (p : ascii -> bool) (s : string) : string * string :=
  match s with
  | EmptyString => (EmptyString, EmptyString)
  | String c r =>
      if p c then let '(h, t) := span p r in (String c h, t)
      else (EmptyString, s)
  end.

(** [s] without the prefix [p], when it has it *)
Fixpoint strip_prefix (p s : string) : option string :=
  match p, s with
  | EmptyString, _ => Some s
  | String a p', String b s' => if Ascii.eqb a b then strip_prefix p' s' else None
  | String _ _, EmptyString => None
  end.

End JsString.

(** ** index.js *)

Module Index.
Import JsString.

(** A thrown [Error] object; only its message is observed. *)
Record exn := Error { message : string }.

(** *** Module-level capabilities (index.js lines 24-35) *)

(** What [require('node:fs')] gives: [existsSync] may be missing. *)
Record fs_module := { existsSync : option (string -> bool) }.

(** The [require] function of the host, when [typeof require === 'function'].
    [req_resolve] is [require.resolve] when it is truthy; [req_node_path] is
    [path.resolve] of [require('node:path')], [None] when loading it throws;
    [req_node_fs] is [require('node:fs')], [None] when loading it throws;
    [req_qerrors] tells whether [require('qerrors')] succeeds. *)
Record require_fn := {
  req_resolve : option (string -> exn + string);
  req_node_path : option (string -> string -> string);
  req_node_fs : option fs_module;
  req_qerrors : bool
}.

(** [env_dirname] is [__dirname] when [typeof __dirname === 'string']. *)
Record host_env := {
  env_require : option require_fn;
  env_dirname : option string
}.

(** [path]: node:path or the fallback [{resolve:(_d,f)=>f}] *)
Definition path_resolve (env : host_env) : string -> string -> string :=
  match env_require env with
  | Some r =>
      match req_node_path r with
      | Some resolve => resolve
      | None => fun _d f => f
      end
  | None => fun _d f => f
  end.

(** [errLog]: qerrors, or null *)
Definition errLog (env : host_env) : bool :=
  match env_require env with
  | Some r => req_qerrors r
  | None => false
  end.

(** [fs]: node:fs, or null *)
Definition fs (env : host_env) : option fs_module :=
  match env_require env with
  | Some r => req_node_fs r
  | None => None
  end.

Inductive log_entry :=
| ConsoleLog (text : string)
| ConsoleError (text : string)
| Qerrors (err : exn) (context : string) (file : string).

(** the logging in the two failure paths of safeResolve: qerrors when
    present, console.error otherwise *)
Definition report (env : host_env) (err : exn) (context file : string) : log_entry :=
  if errLog env then Qerrors err context file
  else ConsoleError (context +:+ ": " +:+ message err).

(** the [try] block of safeResolve: [Some] of what [require.resolve(file)]
    does when [require] is a function with a truthy [resolve], [None] when
    the block is skipped *)
Definition native_resolve (env : host_env) (file : string) : option (exn + string) :=
  match env_require env with
  | Some r =>
      match req_resolve r with
      | Some resolve => Some (resolve file)
      | None => None
      end
  | None => None
  end.

(** [abs] of safeResolve *)
Definition fallback_path (env : host_env) (file : string) : string :=
  let baseDir := match env_dirname env with Some d => d | None => "" end in
  path_resolve env baseDir file.

(** [fs && fs.existsSync && !fs.existsSync(abs)] *)
Definition missing (env : host_env) (abs : string) : bool :=
  match fs env with
  | Some m =>
      match existsSync m with
      | Some ex => negb (ex abs)
      | None => false
      end
  | None => false
  end.

(** [safeResolve(file)]: the thrown error or the returned path, and the
    trace it writes *)
Definition safeResolve (env : host_env) (file : string) : (exn + string) * list log_entry :=
  let entry := [ConsoleLog ("safeResolve is running with " +:+ file)] in
  match native_resolve env file with
  | Some (inr resolved) =>
      (inr resolved, entry ++ [ConsoleLog ("safeResolve is returning " +:+ resolved)])
  | attempt =>
      let caught :=
        match attempt with
        | Some (inl err) => [report env err "safeResolve failed" file]
        | _ => []
        end in
      let abs := fallback_path env file in
      if missing env abs then
        let err := Error ("file not found: " +:+ abs) in
        (inl err, entry ++ caught ++ [report env err "safeResolve missing" file])
      else
        (inr abs, entry ++ caught ++ [ConsoleLog ("safeResolve is returning " +:+ abs)])
  end.

(** *** The document *)

(** The [onerror] closure of an injected link: it captures the link it was
    created for and the base path. *)
Inductive handler := FallbackHandler (target : nat) (basePath : string).

(** A link element. [lid] is the identity of the DOM node; [l_href] is the
    href content attribute, as [getAttribute('href')] returns it. *)
Record link := Link {
  lid : nat;
  l_href : option string;
  l_rel : string;
  l_type : string;
  l_onerror : option handler
}.

(** A script element: its [src] property and whether it carries the
    [data-qorecss] attribute. *)
Record script := Script { s_src : string; s_data_qorecss : bool }.

(** The part of the document injectCss looks at: [document.currentScript],
    the script elements in document order, the link elements of
    [document.head] in document order, and the identity the next created
    element gets. *)
Record document := Document {
  currentScript : option script;
  scripts : list script;
  head_links : list link;
  next_id : nat
}.

(** The browser around the document: [resolveURL] is how the [href] property
    of a link reflects its attribute (URL resolution against
    [document.baseURI]); [pathname] is [new URL(src, document.baseURI).pathname],
    [None] when the constructor throws; [faults] tells, for the n-th DOM
    method call of a run, whether it throws and what. *)
Record browser := Browser {
  resolveURL : string -> string;
  pathname : string -> option string;
  faults : nat -> option exn
}.

(** [l.href]: the empty string without the attribute, the resolved URL with it *)
Definition href (B : browser) (l : link) : string :=
  match l_href l with
  | Some a => resolveURL B a
  | None => ""
  end.

Inductive console_entry :=
| Log (text : string)
| Err (text : string).

Record world := World {
  w_doc : document;
  w_console : list console_entry;
  w_steps : nat
}.

(** *** Computations over the document, with exceptions *)

Definition M (A : Type) : Type := world -> (exn + A) * world.

Definition ret {A} (a : A) : M A := fun w => (inr a, w).

Definition bind {A B} (m : M A) (k : A -> M B) : M B :=
  fun w =>
    match m w with
    | (inr a, w') => k a w'
    | (inl e, w') => (inl e, w')
    end.

(** [try { body } catch(err) { handle err }] *)
Definition try_catch {A} (body : M A) (handle : exn -> M A) : M A :=
  fun w =>
    match body w with
    | (inr a, w') => (inr a, w')
    | (inl e, w') => handle e w'
    end.

Declare Scope js_scope.
Delimit Scope js_scope with js.
Notation "x <- c1 ;; c2" := (bind c1 (fun x => c2))
  (at level 100, c1 at next level, right associativity) : js_scope.
Notation "c1 ;; c2" := (bind c1 (fun _ => c2))
  (at level 100, right associativity) : js_scope.
Local Open Scope js_scope.

Definition console_log (text : string) : M unit :=
  fun w => (inr tt, World (w_doc w) (w_console w ++ [Log text]) (w_steps w)).

Definition console_error (text : string) : M unit :=
  fun w => (inr tt, World (w_doc w) (w_console w ++ [Err text]) (w_steps w)).

(** reading a property of the document *)
Definition read {A} (f : document -> A) : M A := fun w => (inr (f (w_doc w)), w).

(** writing a property of an element in the document *)
Definition write (f : document -> document) : M unit :=
  fun w => (inr tt, World (f (w_doc w)) (w_console w) (w_steps w)).

(** calling a DOM method: it throws when the browser says so, and acts on
    the document otherwise *)
Definition dom_call {A} (B : browser) (f : document -> A * document) : M A :=
  fun w =>
    match faults B (w_steps w) with
    | Some e => (inl e, World (w_doc w) (w_console w) (S (w_steps w)))
    | None =>
        let '(a, d) := f (w_doc w) in
        (inr a, World d (w_console w) (S (w_steps w)))
    end.

(** [xs.forEach(f)] *)
Fixpoint forEach {A} (xs : list A) (f : A -> M unit) : M unit :=
  match xs with
  | [] => ret tt
  | x :: r => f x ;; forEach r f
  end.

(** *** DOM methods *)

(** [Array.from(document.getElementsByTagName('script'))] *)
Definition getElementsByTagName_script (d : document) : list script * document :=
  (scripts d, d).

(** [document.querySelector('script[data-qorecss]')] *)
Definition querySelector_data_qorecss (d : document) : option script * document :=
  (List.find s_data_qorecss (scripts d), d).

(** [Array.from(document.head.querySelectorAll('link'))] *)
Definition querySelectorAll_link (d : document) : list link * document :=
  (head_links d, d).

(** [l.getAttribute('href')] *)
Definition getAttribute_href (l : link) (d : document) : option string * document :=
  (l_href l, d).

(** [l.remove()]: the node leaves the head *)
Definition remove (l : link) (d : document) : unit * document :=
  (tt, Document (currentScript d) (scripts d)
         (List.filter (fun x => negb (lid x =? lid l)) (head_links d))
         (next_id d)).

(** [document.createElement('link')] *)
Definition createElement_link (d : document) : link * document :=
  (Link (next_id d) None "" "" None,
   Document (currentScript d) (scripts d) (head_links d) (S (next_id d))).

(** [document.head.appendChild(link)] *)
Definition appendChild (l : link) (d : document) : unit * document :=
  (tt, Document (currentScript d) (scripts d) (head_links d ++ [l]) (next_id d)).

(** *** injectCss *)

Definition cssFile : string := "core.5c7df4d0.min.css".

(** [/^core(?:\.[a-f0-9]+)?\.min\.css$/.test(file)] *)
Definition coreRegex_test (file : string) : bool :=
  match strip_prefix "core" file with
  | None => false
  | Some rest =>
      String.eqb rest ".min.css" ||
      match rest with
      | String "." r =>
          let '(hash, tail) := span is_hex r in
          negb (String.eqb hash "") && String.eqb tail ".min.css"
      | _ => false
      end
  end.

(** [(href.split('/').pop() || '').split('?')[0].split('#')[0]]: the last
    [/]-segment of the whole href, then cut at the first [?] and at the first
    [#] *)
Definition file_of (href : string) : string :=
  or_empty (first (split "#" (or_empty (first (split "?" (or_empty (pop (split "/" href)))))))).

(** the test of the first cleanup loop, on the href attribute *)
Definition outdated (l : link) : bool :=
  let file := file_of (or_empty (l_href l)) in
  coreRegex_test file && negb (String.eqb file cssFile).

(** [s => new URL(s.src, document.baseURI).pathname.toLowerCase().endsWith('index.js')],
    false when the URL constructor throws *)
Definition is_index_js (B : browser) (s : script) : bool :=
  match pathname B (s_src s) with
  | Some p => endsWith (toLowerCase p) "index.js"
  | None => false
  end.

(** [scriptSrc.slice(0, scriptSrc.lastIndexOf('/') + 1)] when [scriptSrc] is
    not empty *)
Definition basePath_of (scriptSrc : string) : string :=
  if String.eqb scriptSrc "" then ""
  else slice0 scriptSrc (lastIndexOf "/" scriptSrc + 1).

(** [`${document.currentScript && document.currentScript.src}`] *)
Definition currentScript_src (d : document) : string :=
  match currentScript d with
  | Some s => s_src s
  | None => "null"
  end.

(** the script element injectCss takes its base path from *)
Definition find_script (B : browser) : M (option script) :=
  scriptEl <- read currentScript ;;
  scriptEl <- match scriptEl with
              | Some s => ret (Some s)
              | None =>
                  all <- dom_call B getElementsByTagName_script ;;
                  ret (List.find (is_index_js B) all)
              end ;;
  match scriptEl with
  | Some s => ret (Some s)
  | None => dom_call B querySelector_data_qorecss
  end.

(** the [onerror] closure: [link.onerror = null; link.href = basePath + 'qore.css'] *)
Definition run_handler (B : browser) (h : handler) : M unit :=
  let '(FallbackHandler target basePath) := h in
  write (fun d =>
    Document (currentScript d) (scripts d)
      (List.map (fun x =>
         if lid x =? target
         then Link (lid x) (Some (basePath +:+ "qore.css")) (l_rel x) (l_type x) None
         else x) (head_links d))
      (next_id d)) ;;
  console_log ("injectCss fallback to " +:+ resolveURL B (basePath +:+ "qore.css")).

(** the body of the [try] block of injectCss *)
Definition injectCss_try (B : browser) : M link :=
  scriptEl <- find_script B ;;
  let scriptSrc := match scriptEl with Some s => s_src s | None => "" end in
  let basePath := basePath_of scriptSrc in
  console_log ("injectCss basePath " +:+ basePath) ;;
  links <- dom_call B querySelectorAll_link ;;
  forEach links (fun l =>
    a <- dom_call B (getAttribute_href l) ;;
    let file := file_of (or_empty a) in
    if coreRegex_test file && negb (String.eqb file cssFile)
    then dom_call B (remove l) ;;
         console_log ("injectCss removed outdated " +:+ href B l)
    else ret tt) ;;
  freshLinks <- dom_call B querySelectorAll_link ;;
  let fallbacks := List.filter (fun l => includes (href B l) "qore.css") freshLinks in
  forEach fallbacks (fun l =>
    dom_call B (remove l) ;;
    console_log ("injectCss removed fallback " +:+ href B l)) ;;
  all <- dom_call B querySelectorAll_link ;;
  let hashedLinks := List.filter (fun l => includes (href B l) cssFile) all in
  (if (1 <? List.length hashedLinks)%nat
   then forEach (List.tl hashedLinks) (fun l =>
          dom_call B (remove l) ;;
          console_log ("injectCss removed duplicate " +:+ href B l))
   else ret tt) ;;
  match List.head hashedLinks with
  | None =>
      link <- dom_call B createElement_link ;;
      let link := Link (lid link) (Some (basePath +:+ cssFile)) "stylesheet" "text/css"
                       (Some (FallbackHandler (lid link) basePath)) in
      dom_call B (appendChild link) ;;
      console_log "injectCss is returning [object HTMLLinkElement]" ;;
      ret link
  | Some existing =>
      console_log "injectCss is returning [object HTMLLinkElement]" ;;
      ret existing
  end.

(** [injectCss()]: the link it returns, [None] for [undefined] *)
Definition injectCss (B : browser) : M (option link) :=
  src <- read currentScript_src ;;
  console_log ("injectCss is running with " +:+ src) ;;
  try_catch
    (link <- injectCss_try B ;; ret (Some link))
    (fun err => console_error ("injectCss failed: " +:+ message err) ;; ret None).

(** the browser delivering an [error] event to the link [target]: its
    [onerror] handler runs, when it has one *)
Definition dispatch_error (B : browser) (target : nat) : M unit :=
  links <- read head_links ;;
  match List.find (fun x => lid x =? target) links with
  | Some l =>
      match l_onerror l with
      | Some h => run_handler B h
      | None => ret tt
      end
  | None => ret tt
  end.

(** a browser whose DOM methods never throw *)
Definition no_faults : nat -> option exn := fun _ => None.

(** *** What a run of injectCss computes when no DOM call throws *)

Definition set_head (d : document) (h : list link) : document :=
  Document (currentScript d) (scripts d) h (next_id d).

(** the list [h] after [l.remove()] for every [l] of [rs] *)
Definition remove_all (rs h : list link) : list link :=
  List.filter (fun x => negb (List.existsb (fun l => lid x =? lid l) rs)) h.

Definition is_fallback (B : browser) (l : link) : bool := includes (href B l) "qore.css".

Definition is_hashed (B : browser) (l : link) : bool := includes (href B l) cssFile.

Definition script_of (B : browser) (d : document) : option script :=
  match currentScript d with
  | Some s => Some s
  | None =>
      match List.find (is_index_js B) (scripts d) with
      | Some s => Some s
      | None => List.find s_data_qorecss (scripts d)
      end
  end.

Definition basePath (B : browser) (d : document) : string :=
  basePath_of (match script_of B d with Some s => s_src s | None => "" end).

(** [freshLinks]: the links of the head after the first cleanup loop *)
Definition freshLinks (d : document) : list link :=
  remove_all (List.filter outdated (head_links d)) (head_links d).

(** [fallbacks] *)
Definition fallbacks (B : browser) (d : document) : list link :=
  List.filter (is_fallback B) (freshLinks d).

(** the links of the head after the fallbacks are removed, from which
    [hashedLinks] is taken *)
Definition swept (B : browser) (d : document) : list link :=
  remove_all (fallbacks B d) (freshLinks d).

Definition hashedLinks (B : browser) (d : document) : list link :=
  List.filter (is_hashed B) (swept B d).

Definition kept (B : browser) (d : document) : list link :=
  remove_all (List.tl (hashedLinks B d)) (swept B d).

Definition new_link (B : browser) (d : document) : link :=
  Link (next_id d) (Some (basePath B d +:+ cssFile)) "stylesheet" "text/css"
       (Some (FallbackHandler (next_id d) (basePath B d))).

Definition reconciled (B : browser) (d : document) : link * document :=
  match List.head (hashedLinks B d) with
  | Some existing => (existing, set_head d (kept B d))
  | None =>
      (new_link B d,
       Document (currentScript d) (scripts d) (kept B d ++ [new_link B d]) (S (next_id d)))
  end.

(** a document whose link nodes are distinct and older than the next
    created node *)
Definition wf_document (d : document) : Prop :=
  List.NoDup (List.map lid (head_links d)) /\
  Forall (fun l => lid l < next_id d) (head_links d).

(** [m] computes [f] on the document unless a DOM call throws: a returned
    value and the document left are those of [f], and a thrown exception is
    one of the faults of the browser *)
Definition computes {A} (B : browser) (m : M A) (f : document -> A * document) : Prop :=
  forall w,
    match m w with
    | (inr a, w') => (a, w_doc w') = f (w_doc w)
    | (inl e, _) => exists n, faults B n = Some e
    end.

(** the link node [target] of the head *)
Definition find_link (target : nat) (d : document) : option link :=
  List.find (fun x => lid x =? target) (head_links d).

(** the native resolver is unavailable, or it fails *)
Definition native_unavailable (env : host_env) (file : string) : Prop :=
  native_resolve env file = None \/ exists err, native_resolve env file = Some (inl err).

(** the world in which the [try] block starts: the entry line is logged *)
Definition entered (w : world) : world :=
  World (w_doc w)
        (w_console w ++ [Log ("injectCss is running with " +:+ currentScript_src (w_doc w))])
        (w_steps w).

(** the environment branch of the module (index.js lines 122-152) *)
Inductive branch := HostExecution | BrowserBranch | Inert.

(** [has_window] is [typeof window !== 'undefined']; [has_exports] is
    [typeof module !== 'undefined' && module.exports] *)
Definition select_branch (has_window has_exports : bool) : branch :=
  if negb has_window && has_exports then HostExecution
  else if has_window then BrowserBranch
  else Inert.

(** evaluating the module (index.js lines 68-152) on a host with the
    capabilities [env]: the two paths of the [qorecss] object are resolved,
    then the host branch exports, the browser branch calls injectCss, and
    without either facility nothing happens *)
Definition load_module (env : host_env) (has_window has_exports : bool) (B : browser)
  : M branch :=
  fun w =>
    match (safeResolve env "./qore.css").1 with
    | inl e => (inl e, w)
    | inr _ =>
        match (safeResolve env "./variables.css").1 with
        | inl e => (inl e, w)
        | inr _ =>
            match select_branch has_window has_exports with
            | HostExecution => (inr HostExecution, w)
            | BrowserBranch => (injectCss B ;; ret BrowserBranch) w
            | Inert => (inr Inert, w)
            end
        end
    end.

End Index.

(** ** The build orchestrator (scripts/build.js) *)

Module Build.
Import JsString.

(** Modelled from the spec: scripts/build.js is missing. An error the build
    is rejected with: [code] is the [err.code] of a filesystem error ("ENOENT"
    for "not found"), empty for the other errors. *)
Record error := BuildError { code : string; detail : string }.

(** Modelled from the spec: scripts/build.js is not among the sources, only
    its tests are. The collaborators of the Build Orchestrator: the
    declared offline mode (the Stylesheet Processor is bypassed), the
    Stylesheet Processor, the Content Hasher, the two compression
    algorithms, and the deletion primitive, which for a given path may fail
    with an error instead of deleting (a file that disappeared between
    listing and deletion fails with code ENOENT). *)
Record toolchain := Toolchain {
  offline : bool;
  processor : string -> error + string;
  hasher : string -> string;
  gzip : string -> error + string;
  brotli : string -> error + string;
  unlink_fault : string -> option error
}.

(** Modelled from the spec: the source stylesheet at its known relative path
    (the build tests write [qore.css]). *)
Definition sourceFile : string := "qore.css".

(** Modelled from the spec: the Persisted Hash Record. *)
Definition hashRecord : string := "build.hash".

(** Modelled from the spec: the Runtime Module Source. *)
Definition moduleSource : string := "index.js".

(** Modelled from the spec: the Hashed Artifact of a hash is named
    [core.<hash>.min.css]. *)
Definition artifact (hash : string) : string := "core." +:+ hash +:+ ".min.css".

(** Modelled from the spec: the hashed-or-plain "core(.hash)?.min.css" family
    of the Artifact Writer, before an optional [.gz] or [.br]. *)
Definition family_base (name : string) : bool :=
  match strip_prefix "core" name with
  | None => false
  | Some rest =>
      String.eqb rest ".min.css" ||
      match rest with
      | String "." r =>
          let '(hash, tail) := span is_hex r in
          negb (String.eqb hash "") && String.eqb tail ".min.css"
      | _ => false
      end
  end.

(** Modelled from the spec: a name without the suffix of a Compressed
    Variant ([.gz], [.br]). *)
Definition without_variant (name : string) : string :=
  if endsWith name ".gz" || endsWith name ".br"
  then String.substring 0 (String.length name - 3) name
  else name.

(** Modelled from the spec: the family with the compressed variants. *)
Definition in_family (name : string) : bool := family_base (without_variant name).

(** Modelled from the spec: the files the Artifact Writer removes, every
    name of the output directory in the family that is not the target
    filename. *)
Definition scheduled (target : string) (files : gmap string string) : list string :=
  List.filter (fun name => in_family name && negb (String.eqb name target))
              (List.map fst (map_to_list files)).

(** Modelled from the spec: the "not found" failure of a deletion. *)
Definition is_not_found (e : error) : bool := String.eqb (code e) "ENOENT".

(** Modelled from the spec: the deletion primitive; it fails when the
    toolchain makes it fail, and with "not found" on a file that is not
    there. *)
Definition unlink (T : toolchain) (name : string) (files : gmap string string)
  : error + gmap string string :=
  match unlink_fault T name with
  | Some e => inl e
  | None =>
      match files !! name with
      | Some _ => inr (delete name files)
      | None => inl (BuildError "ENOENT" name)
      end
  end.

(** Modelled from the spec: race-tolerant deletion, "not found" is caught
    and ignored, any other deletion failure is propagated. *)
Fixpoint cleanup (T : toolchain) (names : list string) (files : gmap string string)
  : option error * gmap string string :=
  match names with
  | [] => (None, files)
  | name :: rest =>
      match unlink T name files with
      | inr files' => cleanup T rest files'
      | inl e => if is_not_found e then cleanup T rest files else (Some e, files)
      end
  end.

(** Modelled from the spec: a Hash is 8 lowercase hexadecimal characters. *)
Definition is_hash (h : string) : bool := (String.length h =? 8) && all_hex h.

(** Modelled from the spec: the embedded literal has the fixed format
    [core.<8-hex>.min.css]. *)
Definition is_literal (s : string) : bool :=
  match strip_prefix "core." s with
  | Some r => is_hash (String.substring 0 8 r) &&
              String.eqb (String.substring 8 (String.length r - 8) r) ".min.css"
  | None => false
  end.

(** Modelled from the spec: the Module Entry Patcher replaces the first
    occurrence of the embedded literal by the new filename; no match is an
    error ([None]). *)
Fixpoint patch (source target : string) : option string :=
  if is_literal (String.substring 0 21 source)
  then Some (target +:+ String.substring 21 (String.length source - 21) source)
  else match source with
       | EmptyString => None
       | String c r => String c <$> patch r target
       end.

(** Modelled from the spec: [build()], the steps of section 4.1 in their
    order. The result is the Hash or the error the build is rejected with,
    and the files of the output directory afterwards. *)
Definition build (T : toolchain) (files : gmap string string)
  : (error + string) * gmap string string :=
  match files !! sourceFile with
  | None => (inl (BuildError "ENOENT" sourceFile), files)
  | Some source =>
      match (if offline T then inr source else processor T source) with
      | inl e => (inl e, files)
      | inr css =>
          let hash := hasher T css in
          let target := artifact hash in
          match cleanup T (scheduled target files) files with
          | (Some e, remaining) => (inl e, remaining)
          | (None, cleaned) =>
              let written := <[hashRecord := hash]> (<[target := css]> cleaned) in
              match gzip T css, brotli T css with
              | inl e, _ => (inl e, written)
              | _, inl e => (inl e, written)
              | inr gz, inr br =>
                  let compressed :=
                    <[target +:+ ".br" := br]> (<[target +:+ ".gz" := gz]> written) in
                  match compressed !! moduleSource with
                  | None => (inl (BuildError "ENOENT" moduleSource), compressed)
                  | Some js =>
                      match patch js target with
                      | None => (inl (BuildError "" "no hash literal in index.js"), compressed)
                      | Some js' => (inr hash, <[moduleSource := js']> compressed)
                      end
                  end
              end
          end
      end
  end.

(** Modelled from the spec: the output directory after a successful build,
    from the files the cleanup left: the artifact, the hash record, the two
    compressed variants and the patched module source are written. *)
Definition output_files (hash css gz br js : string) (cleaned : gmap string string)
  : gmap string string :=
  <[moduleSource := js]>
    (<[artifact hash +:+ ".br" := br]>
       (<[artifact hash +:+ ".gz" := gz]>
          (<[hashRecord := hash]> (<[artifact hash := css]> cleaned)))).

(** Modelled from the spec: the same toolchain with a deletion primitive
    that never fails by itself. *)
Definition reliable (T : toolchain) : toolchain :=
  Toolchain (offline T) (processor T) (hasher T) (gzip T) (brotli T) (fun _ => None).

(** Modelled from the spec: the processed stylesheet, the source itself in
    offline mode. *)
Definition processed (T : toolchain) (source : string) : error + string :=
  if offline T then inr source else processor T source.

End Build.

(** ** scripts/performance.js *)

Module Performance.
Import JsString Index.

(** [HISTORY_MAX] *)
Definition HISTORY_MAX : nat := 50.

(** white space of [String.prototype.trim] and [parseInt] among the code
    units below 256: tab, line feed, vertical tab, form feed, carriage
    return, space and no-break space *)
Definition is_space (c : ascii) : bool :=
  let n := Ascii.nat_of_ascii c in
  ((9 <=? n) && (n <=? 13) || (n =? 32) || (n =? 160))%nat.

(** [s.trimStart()] *)
Fixpoint trimStart (s : string) : string :=
  match s with
  | EmptyString => EmptyString
  | String c r => if is_space c then trimStart r else s
  end.

(** [s.trimEnd()] *)
Fixpoint trimEnd (s : string) : string :=
  match s with
  | EmptyString => EmptyString
  | String c r =>
      let r' := trimEnd r in
      if String.eqb r' "" && is_space c then EmptyString else String c r'
  end.

(** [s.trim()] *)
Definition trim (s : string) : string := trimStart (trimEnd s).

(** [/^[a-f0-9]{8}$/.test(s)] *)
Definition hashRegex_test (s : string) : bool :=
  (String.length s =? 8)%nat && all_hex s.

(** what [fs.promises.readFile('build.hash','utf8')] does: the content, or
    the [code] of the error it rejects with *)
Inductive read_result :=
| Content (data : string)
| Rejected (code : string) (err : exn).

(** [readBuildHash()]: the hash it resolves to, and what it reports to
    qerrors *)
Definition readBuildHash (file : read_result) : string * list log_entry :=
  match file with
  | Content data =>
      let trimmed := trim data in
      if negb (hashRegex_test trimmed)
      then ("", [Qerrors (Error "invalid hash") "readBuildHash invalid" trimmed])
      else (trimmed, [])
  | Rejected code err =>
      ("", if negb (String.eqb code "ENOENT")
           then [Qerrors err "Failed to read build hash" "build.hash"]
           else [])
  end.

(** [fileName] of run: [core.<hash>.min.css], [core.min.css] for the empty
    hash *)
Definition fileName (hash : string) : string :=
  if String.eqb hash "" then "core.min.css" else "core." +:+ hash +:+ ".min.css".

(** [urls] of run *)
Definition urls (CDN_BASE_URL hash : string) : list string :=
  [CDN_BASE_URL +:+ "/gh/Bijikyu/qoreCSS/" +:+ fileName hash;
   "https://bijikyu.github.io/qoreCSS/" +:+ fileName hash].

Definition digit (c : ascii) : option Z :=
  let n := Ascii.nat_of_ascii c in
  if ((48 <=? n) && (n <=? 57))%nat then Some (Z.of_nat n - 48)%Z else None.

(** the value of the longest prefix of decimal digits, [acc] when there is
    none *)
Fixpoint digits (acc : option Z) (s : string) : option Z :=
  match s with
  | EmptyString => acc
  | String c r =>
      match digit c with
      | Some d => digits (Some (10 * default 0%Z acc + d)%Z) r
      | None => acc
      end
  end.

(** [parseInt(arg, 10)]: [None] is NaN; a missing argument ([undefined]) is
    NaN too *)
Definition parseInt (arg : option string) : option Z :=
  match arg with
  | None => None
  | Some s =>
      match trimStart s with
      | String "-" r => Z.opp <$> digits None r
      | String "+" r => digits None r
      | r => digits None r
      end
  end.

(** [args.splice(args.indexOf(x), 1)] for an [x] that occurs: the first
    occurrence is removed *)
Fixpoint splice_first (x : string) (args : list string) : list string :=
  match args with
  | [] => []
  | a :: r => if String.eqb a x then r else a :: splice_first x r
  end.

(** [jsonFlag] of run *)
Definition jsonFlag (argv : list string) : bool :=
  List.existsb (String.eqb "--json") argv.

(** [requestCount] of run, from [process.argv.slice(2)] *)
Definition requestCount (MAX_CONCURRENCY : Z) (argv : list string) : Z :=
  let args := if jsonFlag argv then splice_first "--json" argv else argv in
  let parsed := parseInt (List.head args) in
  let requestCount :=
    match parsed with
    | None => 5%Z
    | Some n => if ((n <? 1) || (1000 <? n))%Z then 5%Z else n
    end in
  let requestCount := Z.max 1 requestCount in
  if (MAX_CONCURRENCY <? requestCount)%Z then MAX_CONCURRENCY else requestCount.

(** a number of JavaScript with the operations measureUrl uses: [0],
    [a + b], [a / b], and the number a length is *)
Record numbers (T : Type) := Numbers {
  n_zero : T;
  n_add : T -> T -> T;
  n_div : T -> T -> T;
  n_of_nat : nat -> T
}.
Arguments Numbers {T}.
Arguments n_zero {T}.
Arguments n_add {T}.
Arguments n_div {T}.
Arguments n_of_nat {T}.

(** what a call of getTime does: [settles] places the moment its promise
    settles among those of the other calls, [outcome] is the error getTime
    rethrows or the elapsed time it returns *)
Record request (T : Type) := Request { settles : nat; outcome : exn + T }.
Arguments Request {T}.
Arguments settles {T}.
Arguments outcome {T}.

(** the rejection of a batch that settles first, with its moment; of two
    that settle together the earlier call counts *)
Fixpoint first_rejection {T} (batch : list (request T)) : option (nat * exn) :=
  match batch with
  | [] => None
  | r :: rest =>
      match outcome r, first_rejection rest with
      | inl e, Some (s, e') => if (s <? settles r)%nat then Some (s, e') else Some (settles r, e)
      | inl e, None => Some (settles r, e)
      | inr _, later => later
      end
  end.

(** the values of the calls of a batch that fulfil, in the order of the
    calls *)
Fixpoint fulfilled {T} (batch : list (request T)) : list T :=
  match batch with
  | [] => []
  | r :: rest =>
      match outcome r with
      | inr t => t :: fulfilled rest
      | inl _ => fulfilled rest
      end
  end.

(** [await Promise.all(batch)]: the values in the order of the calls when
    every call fulfils, the first rejection otherwise *)
Definition Promise_all {T} (batch : list (request T)) : exn + list T :=
  match first_rejection batch with
  | Some (_, e) => inl e
  | None => inr (fulfilled batch)
  end.

(** the batch loop of measureUrl: [i] runs from its start in steps of
    [QUEUE_LIMIT] while [i < count]; each batch calls getTime
    [Math.min(QUEUE_LIMIT, count - i)] times at once and awaits them all; a
    rejection leaves the loop. [getTime n] is what the call after [n] earlier
    calls does; every earlier call has fulfilled when a batch starts, so
    these are as many as the [times] collected. The result is the error
    thrown or [times], with the sizes of the batches issued; [None] when the
    loop has not ended after [fuel] iterations *)
Fixpoint batches {T} (fuel : nat) (getTime : nat -> request T) (QUEUE_LIMIT count i : Z)
    (issued : list Z) (times : list T) : option ((exn + list T) * list Z) :=
  if (i <? count)%Z then
    match fuel with
    | O => None
    | S fuel' =>
        let batchSize := Z.min QUEUE_LIMIT (count - i) in
        let batch := List.map getTime (List.seq (length times) (Z.to_nat batchSize)) in
        match Promise_all batch with
        | inl err => Some (inl err, issued ++ [batchSize])
        | inr batchTimes =>
            batches fuel' getTime QUEUE_LIMIT count (i + QUEUE_LIMIT)
                    (issued ++ [batchSize]) (times ++ batchTimes)
        end
    end
  else Some (inr times, issued).

(** [measureUrl(url, count)] for an integer [count]: the error it throws or
    the average it returns, with the sizes of the batches of requests it
    has issued *)
Definition measureUrl {T} (N : numbers T) (fuel : nat) (getTime : nat -> request T)
    (QUEUE_LIMIT count : Z) : option ((exn + T) * list Z) :=
  if (count <=? 0)%Z then Some (inl (Error "count must be positive integer"), [])
  else
    match batches fuel getTime QUEUE_LIMIT count 0 [] [] with
    | Some (inr times, issued) =>
        let avg :=
          if (0 <? count)%Z && (0 <? length times)%nat
          then n_div N (List.fold_left (n_add N) times (n_zero N)) (n_of_nat N (length times))
          else n_zero N in
        Some (inr avg, issued)
    | Some (inl err, issued) => Some (inl err, issued)
    | None => None
    end.

(** the history run writes: the entry is pushed, then the oldest entries are
    spliced off beyond [HISTORY_MAX] *)
Definition history {A} (old : list A) (entry : A) : list A :=
  let h := old ++ [entry] in
  if (HISTORY_MAX <? length h)%nat then List.skipn (length h - HISTORY_MAX) h else h.

End Performance.

Import JsString Index Build Performance.
Local Open Scope js_scope.

(** * Sample hosts, browsers and documents *)



(** a host whose [require] has no [resolve] and cannot load node:path, in the
    directory [/pkg] where nothing exists *)
Definition empty_dir_env : host_env :=
  {| env_require := Some {| req_resolve := None;
                            req_node_path := None;
                            req_node_fs := Some {| existsSync := Some (fun _ => false) |};
                            req_qerrors := false |};
     env_dirname := Some "/pkg" |}.

(** a browser: no [require], no [__dirname] *)
Definition browser_env : host_env := {| env_require := None; env_dirname := None |}.

(** a browser that resolves absolute URLs to themselves, parses every [src],
    and whose DOM methods never throw *)
Definition plain_browser : browser := Browser (fun url => url) (fun src => Some src) no_faults.

(** the same browser when its fourth DOM call throws *)
Definition failing_browser : browser :=
  Browser (fun url => url) (fun src => Some src)
          (fun n => if n =? 3 then Some (Error "DOMException") else None).

Definition stylesheet (id : nat) (address : string) : link :=
  Link id (Some address) "stylesheet" "" None.

(** a page with one stale hashed link, no script *)
Definition stale_page : document :=
  Document None [] [stylesheet 0 "https://example.com/core.123.min.css?old=1"] 1.

(** a page that loads the module from a CDN *)
Definition cdn_page : document :=
  Document (Some (Script "https://cdn.example.com/lib/index.js" false))
           [Script "https://cdn.example.com/lib/index.js" false] [] 0.

(** a page that loads the module from a directory named [qore.css] *)
Definition qore_dir_page : document :=
  Document (Some (Script "https://example.com/qore.css/index.js" false))
           [Script "https://example.com/qore.css/index.js" false] [] 0.

(** a page with the current hashed stylesheet and its source map *)
Definition sourcemap_page : document :=
  Document None []
    [stylesheet 0 "https://example.com/core.5c7df4d0.min.css";
     Link 1 (Some "https://example.com/core.5c7df4d0.min.css.map") "" "" None] 2.

(** a page with a stale link, the plain fallback, an unrelated stylesheet and
    the current hashed stylesheet twice *)
Definition crowded_page : document :=
  Document None [Script "https://cdn.example.com/assets/INDEX.JS" false]
    [stylesheet 0 "https://example.com/core.123.min.css?old=1";
     stylesheet 1 "https://example.com/qore.css";
     stylesheet 2 "https://example.com/core.extra.css";
     stylesheet 3 "https://example.com/core.5c7df4d0.min.css";
     stylesheet 4 "https://example.com/core.5c7df4d0.min.css"] 5.

(** the world of a freshly loaded page *)
Definition loaded (d : document) : world := World d [] 0.

(** the toolchain of the build tests: offline mode, and a deletion primitive
    with the given failures *)
Definition test_toolchain (failures : string -> option error) : toolchain :=
  Toolchain true (fun css => inr css)
            (fun css => if String.eqb css "body{}" then "5c7df4d0" else "00000000")
            (fun css => inr ("gzip:" +:+ css)) (fun css => inr ("brotli:" +:+ css))
            failures.

(** the directory of the race test: the source, the module, and the three
    files of an older build *)
Definition seeded_directory : gmap string string :=
  list_to_map
    [("qore.css", "body{}");
     ("index.js", "const cssFile = `core.aaaaaaaa.min.css`;");
     ("core.deadbeef.min.css", "old");
     ("core.deadbeef.min.css.gz", "old");
     ("core.deadbeef.min.css.br", "old")].

(** deleting a file of the older build fails with the given code *)
Definition deadbeef_fails (code : string) (path : string) : option error :=
  if includes path "deadbeef" then Some (BuildError code "unlink") else None.

(** * Notions for the properties of a run *)

(** a link that neither cleanup sweep of injectCss removes: its file part is
    not an outdated core file, and its href does not contain [qore.css] *)
Definition survives (B : browser) (l : link) : bool :=
  negb (outdated l) && negb (is_fallback B l).

(** [d'] has the scripts of [d], and its head holds only links of the head
    of [d], unchanged and in their order *)
Definition only_removed (d d' : document) : Prop :=
  currentScript d' = currentScript d /\ scripts d' = scripts d /\
  sublist (head_links d') (head_links d).

(** whatever its outcome, [m] has only removed links *)
Definition removes_only {A} (m : M A) : Prop :=
  forall w, only_removed (w_doc w) (w_doc (m w).2).

(** when it throws, [m] has only removed links *)
Definition fails_removing {A} (m : M A) : Prop :=
  forall w e w', m w = (inl e, w') -> only_removed (w_doc w) (w_doc w').

(** the source of the script injectCss takes its base path from: the
    executing script, else the first script whose path ends in [index.js],
    else the first script marked [data-qorecss], else none *)
Definition chosen_src (B : browser) (d : document) : string :=
  match currentScript d with
  | Some s => s_src s
  | None =>
      match List.find (is_index_js B) (scripts d) with
      | Some s => s_src s
      | None =>
          match List.find s_data_qorecss (scripts d) with
          | Some s => s_src s
          | None => ""
          end
      end
  end.

(** a page with an unmarked [index.js] of another library before the marked
    script of the module *)
Definition marked_page : document :=
  Document None
    [Script "https://cdn.other.com/ignore/index.js" false;
     Script "https://cdn.target.com/assets/index.js" true]
    [stylesheet 0 "https://example.com/site.css"] 1.

(** a line feed *)
Definition LF : string := String (Ascii.ascii_of_nat 10) "".

(** every character of [s] is white space *)
Fixpoint all_space (s : string) : bool :=
  match s with
  | EmptyString => true
  | String c r => is_space c && all_space r
  end.

(** the plain browser when its ninth DOM call throws: on a page without
    executing script and with one link, that is the [appendChild] *)
Definition append_failing_browser : browser :=
  Browser (fun url => url) (fun src => Some src)
          (fun n => if n =? 8 then Some (Error "HierarchyRequestError") else None).

(** the sum of the sizes of batches *)
Definition total (sizes : list Z) : Z := List.fold_right Z.add 0%Z sizes.

(** the batches of [count] requests under the limit: the full batches,
    then the remainder when there is one *)
Definition schedule (QUEUE_LIMIT count : Z) : list Z :=
  List.repeat QUEUE_LIMIT (Z.to_nat (count / QUEUE_LIMIT)) ++
  (if (count mod QUEUE_LIMIT =? 0)%Z then [] else [(count mod QUEUE_LIMIT)%Z]).

(** times in whole milliseconds, for the samples *)
Definition whole_numbers : numbers Z := Numbers 0%Z Z.add Z.div Z.of_nat.

(** requests that take 100 ms each and settle in the order of the calls *)
Definition steady (n : nat) : request Z := Request n (inr 100%Z).

(** the same requests when the eighth call is rejected *)
Definition eighth_fails (n : nat) : request Z :=
  if n =? 7 then Request n (inl (Error "ETIMEDOUT")) else steady n.

(** the filename portion of an href as the specification words it: the
    href with query string and fragment stripped, then its last path
    segment; to be compared with [file_of], which takes the last segment of
    the whole href first *)
Definition claimed_file_part (href : string) : string :=
  or_empty (pop (split "/" (or_empty (first (split "#" (or_empty (first (split "?" href)))))))).

(** a page with one stale hashed link whose query string holds a [/] *)
Definition slash_query_page : document :=
  Document None [] [stylesheet 0 "https://example.com/core.123.min.css?cb=/x"] 1.

(** [link.href = value] on the link node [target], as the test of the
    handler resets the address *)
Definition set_href (target : nat) (value : string) : M unit :=
  write (fun d =>
    Document (currentScript d) (scripts d)
      (List.map (fun x =>
         if lid x =? target
         then Link (lid x) (Some value) (l_rel x) (l_type x) (l_onerror x)
         else x) (head_links d))
      (next_id d)).

(** * Properties *)

(** ** Strings *)

Section StringFacts.

Lemma append_nil (s : string) : "" +:+ s = s.
Proof. reflexivity. Qed.

Lemma append_cons (x : ascii) (s t : string) : String x s +:+ t = String x (s +:+ t).
Proof. reflexivity. Qed.

Lemma append_assoc (a b c : string) : (a +:+ b) +:+ c = a +:+ (b +:+ c).
Proof.
  induction a as [|x a IH]; [reflexivity|].
  rewrite !append_cons, IH. reflexivity.
Qed.

Lemma prefix_refl (s : string) : String.prefix s s = true.
Proof.
  induction s as [|a s IH]; simpl; [reflexivity|].
  destruct (ascii_dec a a); [assumption | congruence].
Qed.

Lemma prefix_empty (t : string) : String.prefix "" t = true.
Proof. destruct t; reflexivity. Qed.

Lemma prefix_app (s t : string) : String.prefix s (s +:+ t) = true.
Proof.
  induction s as [|a s IH]; simpl; [apply prefix_empty|].
  destruct (ascii_dec a a); [assumption | congruence].
Qed.

Lemma includes_self_app (s t : string) : includes (s +:+ t) s = true.
Proof.
  destruct s; simpl.
  - destruct t; reflexivity.
  - rewrite prefix_app. destruct (ascii_dec a a); [reflexivity | congruence].
Qed.

Lemma includes_app_r (p s : string) : includes (p +:+ s) s = true.
Proof.
  induction p as [|a p IH]; simpl.
  - destruct s; simpl; [reflexivity|].
    rewrite prefix_refl. destruct (ascii_dec a a); [reflexivity | congruence].
  - rewrite IH. apply orb_true_r.
Qed.

Lemma includes_app_l (p s t : string) :
  includes s t = true -> includes (p +:+ s) t = true.
Proof.
  intros H. induction p as [|a p IH]; simpl; [exact H|].
  rewrite IH. apply orb_true_r.
Qed.

End StringFacts.

(** ** The file-name pattern of injectCss *)

Section Pattern.

Lemma strip_prefix_Some (p s r : string) :
  strip_prefix p s = Some r <-> s = p +:+ r.
Proof.
  revert s. induction p as [|a p IH]; intros s; simpl.
  - rewrite append_nil. split; [intros [= ->]; reflexivity | intros ->; reflexivity].
  - destruct s as [|b s]; [split; discriminate|].
    rewrite append_cons. destruct (Ascii.eqb_spec a b) as [-> | Hne].
    + rewrite IH. split; [intros ->; reflexivity | intros [= ->]; reflexivity].
    + split; [discriminate | intros [= ? ?]; congruence].
Qed.

Lemma span_hex_sound (s hash tail : string) :
  span is_hex s = (hash, tail) -> s = hash +:+ tail /\ all_hex hash = true.
Proof.
  revert hash tail. induction s as [|c r IH]; intros hash tail; simpl.
  - intros [= <- <-]. split; reflexivity.
  - destruct (is_hex c) eqn:Hc.
    + destruct (span is_hex r) as [h t]. intros [= <- <-].
      destruct (IH h t eq_refl) as [-> Hh]. rewrite append_cons. simpl.
      rewrite Hc, Hh. split; reflexivity.
    + intros [= <- <-]. split; reflexivity.
Qed.

Lemma span_hex_complete (hash tail : string) :
  all_hex hash = true ->
  match tail with EmptyString => True | String c _ => is_hex c = false end ->
  span is_hex (hash +:+ tail) = (hash, tail).
Proof.
  intros Hh Ht. induction hash as [|c r IH].
  - rewrite append_nil. destruct tail as [|c t]; simpl; [reflexivity|].
    rewrite Ht. reflexivity.
  - simpl in Hh. apply andb_true_iff in Hh as [Hc Hr].
    rewrite append_cons. simpl. rewrite Hc, (IH Hr). reflexivity.
Qed.

(** [coreRegex_test] accepts the language of
    [/^core(?:\.[a-f0-9]+)?\.min\.css$/]: the plain name, or the name with
    one non-empty run of lowercase hexadecimal characters *)
Lemma coreRegex_test_spec (file : string) :
  coreRegex_test file = true <->
  file = "core.min.css" \/
  exists hash, hash <> "" /\ all_hex hash = true /\ file = "core." +:+ hash +:+ ".min.css".
Proof.
  unfold coreRegex_test. split.
  - destruct (strip_prefix "core" file) as [rest|] eqn:Hp; [|discriminate].
    apply strip_prefix_Some in Hp. subst file.
    intros H. apply orb_true_iff in H as [H | H].
    + apply String.eqb_eq in H. subst rest. left. reflexivity.
    + destruct rest as [|c r]; [discriminate|].
      destruct (Ascii.eqb_spec c ".") as [-> | Hne].
      * destruct (span is_hex r) as [hash tail] eqn:Hs.
        apply andb_true_iff in H as [Hne Htail].
        apply String.eqb_eq in Htail. subst tail.
        apply span_hex_sound in Hs as [-> Hhex].
        right. exists hash. split; [|split; [exact Hhex | reflexivity]].
        intros ->. discriminate Hne.
      * exfalso. destruct c as [[] [] [] [] [] [] [] []]; try discriminate H.
        apply Hne. reflexivity.
  - intros [-> | (hash & Hne & Hhex & ->)]; [reflexivity|].
    replace (strip_prefix "core" ("core." +:+ hash +:+ ".min.css"))
      with (Some (String "." (hash +:+ ".min.css"))) by reflexivity.
    apply orb_true_iff. right.
    rewrite (span_hex_complete hash ".min.css" Hhex) by reflexivity.
    destruct hash; [congruence | reflexivity].
Qed.

End Pattern.

(** ** Path resolution *)

Section SafeResolve.

Variable env : host_env.
Variable file : string.

Lemma safeResolve_native (resolved : string) :
  native_resolve env file = Some (inr resolved) ->
  (safeResolve env file).1 = inr resolved.
Proof. intros H. unfold safeResolve. rewrite H. reflexivity. Qed.

Lemma safeResolve_fallback :
  native_unavailable env file ->
  (safeResolve env file).1 =
    if missing env (fallback_path env file)
    then inl (Error ("file not found: " +:+ fallback_path env file))
    else inr (fallback_path env file).
Proof.
  intros [H | [err H]]; unfold safeResolve; rewrite H;
    destruct (missing env (fallback_path env file)); reflexivity.
Qed.

Lemma missing_iff (abs : string) :
  missing env abs = true <->
  exists m ex, fs env = Some m /\ existsSync m = Some ex /\ ex abs = false.
Proof.
  unfold missing. split.
  - destruct (fs env) as [m|]; [|discriminate].
    destruct (existsSync m) as [ex|] eqn:Hex; [|discriminate].
    intros H. exists m, ex. repeat split; auto.
    destruct (ex abs); [discriminate | reflexivity].
  - intros (m & ex & -> & -> & ->). reflexivity.
Qed.

(** C8. When the native resolver is unavailable or fails, safeResolve throws
    exactly when an existence check is available ([fs] and [fs.existsSync])
    and reports the computed fallback path missing; the message of the
    thrown error names that path; in every other case, in particular
    without a filesystem capability, it returns the computed path. *)
Theorem safeResolve_throws_iff_missing :
  native_unavailable env file ->
  let abs := fallback_path env file in
  ((exists err, (safeResolve env file).1 = inl err) <->
   (exists m ex, fs env = Some m /\ existsSync m = Some ex /\ ex abs = false)) /\
  (forall err, (safeResolve env file).1 = inl err ->
               message err = "file not found: " +:+ abs /\
               includes (message err) abs = true) /\
  ((fs env = None \/ exists m, fs env = Some m /\ existsSync m = None) ->
   (safeResolve env file).1 = inr abs) /\
  ((forall err, (safeResolve env file).1 <> inl err) ->
   (safeResolve env file).1 = inr abs).
Proof.
  intros Hnative abs. pose proof (safeResolve_fallback Hnative) as Hres.
  fold abs in Hres. rewrite Hres. rewrite <- missing_iff.
  destruct (missing env abs) eqn:Hmiss.
  - split; [split; eauto|]. split.
    + intros err [= <-]. split; [reflexivity|]. apply includes_app_r.
    + split.
      * unfold missing in Hmiss. intros [Hfs | (m & Hfs & Hex)]; rewrite Hfs in Hmiss;
          [discriminate | rewrite Hex in Hmiss; discriminate].
      * intros Hno. exfalso. eapply Hno. reflexivity.
  - split; [split; [intros [err [=]] | discriminate]|].
    split; [intros err [=]|]. split; reflexivity.
Qed.


End SafeResolve.

Lemma safeResolve_throws_iff_missing_witness :
  native_unavailable empty_dir_env "./qore.css" /\
  exists err, (safeResolve empty_dir_env "./qore.css").1 = inl err /\
              message err = "file not found: ./qore.css".
Proof.
  assert (Hn : native_unavailable empty_dir_env "./qore.css") by (left; reflexivity).
  split; [exact Hn|].
  destruct (safeResolve_throws_iff_missing _ _ Hn) as (Hiff & Hmsg & _).
  destruct (proj2 Hiff) as [err Herr].
  - eexists _, _. repeat split; reflexivity.
  - exists err. split; [exact Herr | apply (Hmsg err Herr)].
Defined.



(** ** Stylesheet injection: what a run computes *)

Section Computes.

Variable B : browser.

Lemma computes_ret {A} (a : A) : computes B (ret a) (fun d => (a, d)).
Proof. intros w. reflexivity. Qed.

Lemma computes_bind {A C} (m : M A) (k : A -> M C) f g :
  computes B m f ->
  (forall a, computes B (k a) (g a)) ->
  computes B (bind m k) (fun d => g (f d).1 (f d).2).
Proof.
  intros Hm Hk w. unfold bind. specialize (Hm w).
  destruct (m w) as [[e|a] w1]; [exact Hm|].
  specialize (Hk a w1). destruct (k a w1) as [[e|c] w2]; [exact Hk|].
  rewrite <- Hm. exact Hk.
Qed.

Lemma computes_ext {A} (m : M A) f f' :
  computes B m f -> (forall d, f d = f' d) -> computes B m f'.
Proof.
  intros Hm Hf w. specialize (Hm w). destruct (m w) as [[e|a] w1]; [exact Hm|].
  rewrite <- Hf. exact Hm.
Qed.

Lemma computes_read {A} (f : document -> A) : computes B (read f) (fun d => (f d, d)).
Proof. intros w. reflexivity. Qed.

Lemma computes_console_log (text : string) :
  computes B (console_log text) (fun d => (tt, d)).
Proof. intros w. reflexivity. Qed.

Lemma computes_dom_call {A} (f : document -> A * document) :
  computes B (dom_call B f) f.
Proof.
  intros w. unfold dom_call. destruct (faults B (w_steps w)) as [e|] eqn:He.
  - exists (w_steps w). exact He.
  - destruct (f (w_doc w)) as [a d]. reflexivity.
Qed.

Lemma computes_forEach {A} (xs : list A) (body : A -> M unit) (g : A -> document -> document) :
  (forall x, computes B (body x) (fun d => (tt, g x d))) ->
  computes B (forEach xs body) (fun d => (tt, fold_left (fun d x => g x d) xs d)).
Proof.
  intros Hbody. induction xs as [|x xs IH]; simpl.
  - apply computes_ret.
  - eapply computes_ext; [eapply computes_bind; [apply Hbody | intros ?; apply IH]|].
    reflexivity.
Qed.

(** *** The cleanup loops remove by node identity *)

Lemma remove_all_nil (h : list link) : remove_all [] h = h.
Proof.
  unfold remove_all. simpl. induction h as [|x h IH]; simpl; [reflexivity|].
  rewrite IH. reflexivity.
Qed.

Lemma remove_all_cons (l : link) (rs h : list link) :
  remove_all rs (List.filter (fun x => negb (lid x =? lid l)) h) = remove_all (l :: rs) h.
Proof.
  unfold remove_all. induction h as [|x h IH]; simpl; [reflexivity|].
  destruct (lid x =? lid l); simpl; [exact IH|].
  destruct (existsb (fun l0 => lid x =? lid l0) rs); simpl; [exact IH|].
  rewrite IH. reflexivity.
Qed.

Lemma fold_remove (rs : list link) (d : document) :
  fold_left (fun d l => (remove l d).2) rs d = set_head d (remove_all rs (head_links d)).
Proof.
  revert d. induction rs as [|l rs IH]; intros d; simpl.
  - rewrite remove_all_nil. destruct d; reflexivity.
  - rewrite IH. unfold set_head. simpl. rewrite remove_all_cons. reflexivity.
Qed.

Lemma fold_remove_if (P : link -> bool) (rs : list link) (d : document) :
  fold_left (fun d l => if P l then (remove l d).2 else d) rs d =
  set_head d (remove_all (List.filter P rs) (head_links d)).
Proof.
  revert d. induction rs as [|l rs IH]; intros d; simpl.
  - rewrite remove_all_nil. destruct d; reflexivity.
  - rewrite IH. destruct (P l); simpl.
    + unfold set_head. simpl. rewrite remove_all_cons. reflexivity.
    + reflexivity.
Qed.

(** the second and third loops: [rs.forEach(l => { l.remove(); console.log(..) })] *)
Lemma computes_remove_loop (rs : list link) (text : link -> string) :
  computes B
    (forEach rs (fun l => dom_call B (remove l) ;; console_log (text l)))
    (fun d => (tt, set_head d (remove_all rs (head_links d)))).
Proof.
  eapply computes_ext.
  - apply (computes_forEach rs _ (fun l d => (remove l d).2)).
    intros l. eapply computes_ext.
    + eapply computes_bind; [apply computes_dom_call | intros ?; apply computes_console_log].
    + reflexivity.
  - intros d. simpl. rewrite fold_remove. reflexivity.
Qed.

(** the first loop *)
Lemma computes_outdated_loop (links : list link) :
  computes B
    (forEach links (fun l =>
       a <- dom_call B (getAttribute_href l) ;;
       let file := file_of (or_empty a) in
       if coreRegex_test file && negb (String.eqb file cssFile)
       then dom_call B (remove l) ;;
            console_log ("injectCss removed outdated " +:+ href B l)
       else ret tt))
    (fun d => (tt, set_head d (remove_all (List.filter outdated links) (head_links d)))).
Proof.
  eapply computes_ext.
  - apply (computes_forEach links _
             (fun l d => if outdated l then (remove l d).2 else d)).
    intros l. eapply computes_ext.
    + eapply computes_bind; [apply computes_dom_call|].
      intros a.
      instantiate (1 := fun a d =>
        if coreRegex_test (file_of (or_empty a)) &&
           negb (String.eqb (file_of (or_empty a)) cssFile)
        then (tt, (remove l d).2) else (tt, d)).
      simpl.
      destruct (coreRegex_test (file_of (or_empty a)) &&
                negb (String.eqb (file_of (or_empty a)) cssFile)).
      * eapply computes_ext;
          [eapply computes_bind; [apply computes_dom_call | intros ?; apply computes_console_log]|].
        reflexivity.
      * apply computes_ret.
    + intros d. simpl. unfold outdated.
      destruct (coreRegex_test (file_of (or_empty (l_href l))) &&
                negb (String.eqb (file_of (or_empty (l_href l))) cssFile)); reflexivity.
  - intros d. simpl. rewrite fold_remove_if. reflexivity.
Qed.

Lemma computes_find_script :
  computes B (find_script B) (fun d => (script_of B d, d)).
Proof.
  intros w. unfold find_script, script_of, bind, read.
  destruct (currentScript (w_doc w)) as [s|]; [reflexivity|].
  pose proof (computes_dom_call getElementsByTagName_script w) as H1.
  destruct (dom_call B getElementsByTagName_script w) as [[e|all] w1]; [exact H1|].
  simpl in H1. injection H1 as -> Hd. unfold ret.
  destruct (List.find (is_index_js B) (scripts (w_doc w))) as [s|]; [rewrite Hd; reflexivity|].
  pose proof (computes_dom_call querySelector_data_qorecss w1) as H2.
  destruct (dom_call B querySelector_data_qorecss w1) as [[e|s] w2]; [exact H2|].
  simpl in H2. rewrite Hd in H2. exact H2.
Qed.

Ltac run lem a w' H :=
  match goal with
  | |- context [bind ?m ?k ?w0] =>
      change (bind m k w0) with
        (match m w0 with
         | (inr a, w') => k a w'
         | (inl e, w') => (inl e, w')
         end);
      eassert (H : computes B m _) by (apply lem);
      specialize (H w0);
      destruct (m w0) as [[?e|a] w']; [exact H|]; simpl in H; cbv beta;
      injection H as -> H
  end.

Lemma computes_duplicates_loop (hashed : list link) :
  computes B
    (if (1 <? length hashed)%nat
     then forEach (List.tl hashed)
            (fun l => dom_call B (remove l) ;;
                      console_log ("injectCss removed duplicate " +:+ href B l))
     else ret tt)
    (fun d => (tt, set_head d (remove_all (List.tl hashed) (head_links d)))).
Proof.
  destruct (1 <? length hashed)%nat eqn:Hlen.
  - apply computes_remove_loop.
  - eapply computes_ext; [apply computes_ret|].
    intros d. simpl.
    destruct hashed as [|x [|y r]]; simpl in *;
      try discriminate; rewrite remove_all_nil; destruct d; reflexivity.
Qed.

(** a run of the [try] block that does not throw returns the link and
    leaves the document that [reconciled] describes *)
Theorem injectCss_try_computes : computes B (injectCss_try B) (reconciled B).
Proof.
  intros w. unfold injectCss_try.
  run computes_find_script scriptEl w1 H1.
  run computes_console_log u2 w2 H2.
  run (@computes_dom_call) links w3 H3.
  run computes_outdated_loop u4 w4 H4.
  run (@computes_dom_call) fl w5 H5.
  run computes_remove_loop u6 w6 H6.
  run (@computes_dom_call) ls w7 H7.
  assert (Hfresh : head_links (w_doc w6) = swept B (w_doc w)).
  { rewrite H6. simpl. rewrite H5, H4. simpl. rewrite H3, H2, H1. reflexivity. }
  assert (Hrest : currentScript (w_doc w7) = currentScript (w_doc w) /\
                  scripts (w_doc w7) = scripts (w_doc w) /\
                  next_id (w_doc w7) = next_id (w_doc w)).
  { rewrite H7, H6. simpl. rewrite H5, H4. simpl. rewrite H3, H2, H1. auto. }
  destruct Hrest as (Hcs & Hss & Hnext). rewrite H7 in Hcs, Hss, Hnext.
  fold (is_hashed B). rewrite Hfresh. fold (hashedLinks B (w_doc w)).
  run computes_duplicates_loop u8 w8 H8.
  rewrite H7, Hfresh in H8. fold (kept B (w_doc w)) in H8.
  unfold reconciled, basePath.
  destruct (List.head (hashedLinks B (w_doc w))) as [existing|].
  - run computes_console_log u9 w9 H9.
    unfold ret. rewrite H9, H8. unfold set_head.
    rewrite Hcs, Hss, Hnext. reflexivity.
  - run (@computes_dom_call) lnk w9 H9.
    run (@computes_dom_call) u10 w10 H10.
    run computes_console_log u11 w11 H11.
    unfold ret. rewrite H11, H10, H9. simpl.
    rewrite H8. simpl. rewrite Hcs, Hss, Hnext. reflexivity.
Qed.

End Computes.

(** ** The file name of the injected link *)

Section BasePath.

Lemma split_nonempty (sep : ascii) (s : string) : split sep s <> [].
Proof.
  destruct s as [|a r]; simpl; [discriminate|].
  destruct (Ascii.eqb a sep); [discriminate|].
  destruct (split sep r); discriminate.
Qed.

Lemma pop_cons (x : string) (l : list string) : l <> [] -> pop (x :: l) = pop l.
Proof. destruct l; [congruence | reflexivity]. Qed.

Lemma split_length_sep (sep : ascii) (q c : string) :
  2 <= length (split sep (q +:+ String sep c)).
Proof.
  induction q as [|a q IH]; rewrite ?append_nil, ?append_cons; simpl.
  - rewrite Ascii.eqb_refl. simpl.
    pose proof (split_nonempty sep c). destruct (split sep c); [congruence | simpl; lia].
  - destruct (Ascii.eqb a sep); simpl; [lia|].
    destruct (split sep (q +:+ String sep c)); simpl in *; lia.
Qed.

(** the last segment of a string is the last segment of what follows any
    separator in it *)
Lemma pop_split_after_sep (sep : ascii) (q c : string) :
  pop (split sep (q +:+ String sep c)) = pop (split sep c).
Proof.
  induction q as [|a q IH]; rewrite ?append_nil, ?append_cons; simpl.
  - rewrite Ascii.eqb_refl. apply pop_cons, split_nonempty.
  - pose proof (split_length_sep sep q c) as Hlen.
    destruct (Ascii.eqb a sep).
    + rewrite pop_cons; [exact IH | apply split_nonempty].
    + destruct (split sep (q +:+ String sep c)) as [|h [|y t]]; simpl in Hlen; try lia.
      rewrite <- IH. reflexivity.
Qed.

Lemma substring_0_0 (s : string) : String.substring 0 0 s = "".
Proof. destruct s; reflexivity. Qed.

Lemma lastIndexOf_lower (c : ascii) (s : string) : (-1 <= lastIndexOf c s)%Z.
Proof.
  induction s as [|a r IH]; simpl; [lia|].
  destruct (0 <=? lastIndexOf c r)%Z eqn:H; [lia|].
  destruct (Ascii.eqb a c); lia.
Qed.

Lemma slice_lastIndexOf (c : ascii) (s : string) :
  slice0 s (lastIndexOf c s + 1) = "" \/
  exists q, slice0 s (lastIndexOf c s + 1) = q +:+ String c "".
Proof.
  unfold slice0. induction s as [|a r IH]; simpl; [left; reflexivity|].
  pose proof (lastIndexOf_lower c r) as Hlow.
  destruct (0 <=? lastIndexOf c r)%Z eqn:Hi.
  - apply Z.leb_le in Hi. right.
    replace (Z.to_nat (lastIndexOf c r + 1 + 1)) with (S (Z.to_nat (lastIndexOf c r + 1))) by lia.
    simpl. destruct IH as [IH | [q IH]].
    + exfalso. replace (Z.to_nat (lastIndexOf c r + 1)) with (S (Z.to_nat (lastIndexOf c r))) in IH by lia.
      destruct r; simpl in *; [lia | discriminate].
    + exists (String a q). rewrite IH. reflexivity.
  - destruct (Ascii.eqb a c) eqn:Hac.
    + right. exists "". apply Ascii.eqb_eq in Hac. subst a. simpl.
      rewrite substring_0_0. reflexivity.
    + left. reflexivity.
Qed.

Lemma basePath_of_cases (scriptSrc : string) :
  basePath_of scriptSrc = "" \/ exists q, basePath_of scriptSrc = q +:+ "/".
Proof.
  unfold basePath_of. destruct (String.eqb scriptSrc ""); [left; reflexivity|].
  apply slice_lastIndexOf.
Qed.

(** the href attribute injectCss gives its link has the hashed file name as
    its file part *)
Lemma file_of_injected (scriptSrc : string) :
  file_of (basePath_of scriptSrc +:+ cssFile) = cssFile.
Proof.
  unfold file_of.
  assert (Hpop : pop (split "/" (basePath_of scriptSrc +:+ cssFile)) = Some cssFile).
  { destruct (basePath_of_cases scriptSrc) as [-> | [q ->]]; [reflexivity|].
    rewrite append_assoc. change ("/" +:+ cssFile) with (String "/" cssFile).
    rewrite pop_split_after_sep. reflexivity. }
  rewrite Hpop. reflexivity.
Qed.

End BasePath.

(** ** Stylesheet injection: exceptions *)

Section InjectionFailure.

Variable B : browser.

Lemma injectCss_unfold (w : world) :
  injectCss B w =
  match injectCss_try B (entered w) with
  | (inr l, w') => (inr (Some l), w')
  | (inl err, w') =>
      (inr None,
       World (w_doc w') (w_console w' ++ [Err ("injectCss failed: " +:+ message err)])
             (w_steps w'))
  end.
Proof.
  unfold injectCss, bind, read, console_log, try_catch, console_error, ret, entered. simpl.
  destruct (injectCss_try B _) as [[err|l] w']; reflexivity.
Qed.

(** a run that returns a link did not throw, and computed [reconciled] *)
Lemma injectCss_success (w w' : world) (l : link) :
  injectCss B w = (inr (Some l), w') ->
  (l, w_doc w') = reconciled B (w_doc w).
Proof.
  rewrite injectCss_unfold. pose proof (injectCss_try_computes B (entered w)) as H.
  destruct (injectCss_try B (entered w)) as [[err|l0] w0]; [discriminate|].
  intros [= -> ->]. exact H.
Qed.

(** without faults every run returns a link *)
Lemma injectCss_no_faults (w : world) :
  (forall n, faults B n = None) ->
  exists w', injectCss B w = (inr (Some (reconciled B (w_doc w)).1), w') /\
             w_doc w' = (reconciled B (w_doc w)).2.
Proof.
  intros Hnone. rewrite injectCss_unfold.
  pose proof (injectCss_try_computes B (entered w)) as H.
  destruct (injectCss_try B (entered w)) as [[err|l0] w0].
  - destruct H as [n Hn]. rewrite Hnone in Hn. discriminate.
  - exists w0. simpl in H. rewrite <- H. split; reflexivity.
Qed.

(** C5. injectCss never raises: every call returns; an exception raised in
    the injection sequence is caught, its message is logged with
    console.error, and [undefined] is returned. Loading the module in a
    browser therefore fails only when one of the two path resolutions
    fails, never because of the injection. *)
Theorem injectCss_never_raises (w : world) :
  (exists r w', injectCss B w = (inr r, w')) /\
  (forall err w', injectCss_try B (entered w) = (inl err, w') ->
     injectCss B w =
       (inr None,
        World (w_doc w') (w_console w' ++ [Err ("injectCss failed: " +:+ message err)])
              (w_steps w'))) /\
  (forall env has_window has_exports err,
     (load_module env has_window has_exports B w).1 = inl err ->
     (safeResolve env "./qore.css").1 = inl err \/
     (safeResolve env "./variables.css").1 = inl err).
Proof.
  split; [|split].
  - rewrite injectCss_unfold.
    destruct (injectCss_try B (entered w)) as [[err|l] w']; eauto.
  - intros err w' H. rewrite injectCss_unfold, H. reflexivity.
  - intros env has_window has_exports err. unfold load_module.
    destruct (safeResolve env "./qore.css").1 as [e1|p1]; [intros [= ->]; auto|].
    destruct (safeResolve env "./variables.css").1 as [e2|p2]; [intros [= ->]; auto|].
    destruct (select_branch has_window has_exports); try discriminate.
    unfold bind. rewrite injectCss_unfold.
    destruct (injectCss_try B (entered w)) as [[e|l] w']; discriminate.
Qed.

End InjectionFailure.

(** the exception of the failing browser is raised inside the first cleanup
    loop, caught and logged *)
Example injectCss_catches :
  (injectCss failing_browser (loaded stale_page)).1 = inr None /\
  w_console (injectCss failing_browser (loaded stale_page)).2 =
    [Log "injectCss is running with null"; Log "injectCss basePath ";
     Err "injectCss failed: DOMException"].
Proof. split; reflexivity. Qed.

(** ** Stylesheet injection: the links of the head *)

Section LinkSet.

Variable B : browser.

Lemma in_remove_all (x : link) (rs h : list link) :
  In x (remove_all rs h) <->
  In x h /\ existsb (fun l => lid x =? lid l) rs = false.
Proof. unfold remove_all. rewrite List.filter_In, negb_true_iff. reflexivity. Qed.

Lemma existsb_lid_self (x : link) (rs : list link) :
  In x rs -> existsb (fun l => lid x =? lid l) rs = true.
Proof.
  intros H. apply List.existsb_exists. exists x. split; [exact H | apply Nat.eqb_refl].
Qed.

Lemma NoDup_lid_inj (h : list link) (x y : link) :
  List.NoDup (List.map lid h) -> In x h -> In y h -> lid x = lid y -> x = y.
Proof.
  induction h as [|a h IH]; simpl; [tauto|].
  intros Hnd. apply List.NoDup_cons_iff in Hnd as [Hnotin Hnd'].
  intros [-> | Hx] [-> | Hy] Hid; auto.
  - exfalso. apply Hnotin. rewrite Hid. apply List.in_map, Hy.
  - exfalso. apply Hnotin. rewrite <- Hid. apply List.in_map, Hx.
Qed.

Lemma existsb_lid_other (h rs : list link) (x : link) :
  List.NoDup (List.map lid h) -> In x h -> (forall r, In r rs -> In r h) -> ~ In x rs ->
  existsb (fun l => lid x =? lid l) rs = false.
Proof.
  intros Hnd Hx Hsub Hnot.
  destruct (existsb _ rs) eqn:He; [|reflexivity].
  apply List.existsb_exists in He as (r & Hr & Hid). apply Nat.eqb_eq in Hid.
  exfalso. apply Hnot. rewrite (NoDup_lid_inj h x r Hnd Hx (Hsub r Hr) Hid). exact Hr.
Qed.

Lemma NoDup_lid_filter (P : link -> bool) (h : list link) :
  List.NoDup (List.map lid h) -> List.NoDup (List.map lid (List.filter P h)).
Proof.
  induction h as [|a h IH]; simpl; [auto|].
  intros Hnd. apply List.NoDup_cons_iff in Hnd as [Hnotin Hnd'].
  destruct (P a); simpl; [|auto].
  apply List.NoDup_cons_iff. split; [|auto].
  intros Hin. apply Hnotin.
  apply List.in_map_iff in Hin as (y & Hy & Hin). apply List.in_map_iff.
  exists y. split; [exact Hy|]. apply List.filter_In in Hin. tauto.
Qed.

Lemma NoDup_lid_remove_all (rs h : list link) :
  List.NoDup (List.map lid h) -> List.NoDup (List.map lid (remove_all rs h)).
Proof. apply NoDup_lid_filter. Qed.

Lemma filter_none {A} (P : A -> bool) (h : list A) :
  (forall x, In x h -> P x = false) -> List.filter P h = [].
Proof.
  induction h as [|a h IH]; simpl; [reflexivity|].
  intros H. rewrite (H a) by auto. apply IH. auto.
Qed.

Lemma filter_remove_all (P : link -> bool) (rs h : list link) :
  List.filter P (remove_all rs h) = remove_all rs (List.filter P h).
Proof.
  unfold remove_all. induction h as [|a h IH]; simpl; [reflexivity|].
  destruct (existsb (fun l => lid a =? lid l) rs) eqn:He, (P a) eqn:HP;
    simpl; rewrite ?He, ?HP; simpl; rewrite IH; reflexivity.
Qed.

Lemma remove_all_covered (rs h : list link) :
  (forall x, In x h -> In x rs) -> remove_all rs h = [].
Proof.
  intros H. apply filter_none. intros x Hx.
  rewrite existsb_lid_self by auto. reflexivity.
Qed.

Lemma remove_all_head (e : link) (rest : list link) :
  remove_all rest (e :: rest) = remove_all rest [e].
Proof.
  unfold remove_all. simpl. rewrite (filter_none _ rest).
  - destruct (negb _); reflexivity.
  - intros x Hx. rewrite existsb_lid_self by exact Hx. reflexivity.
Qed.

(** *** The three cleanup steps *)

Variable d : document.

Lemma swept_sound (x : link) :
  In x (swept B d) ->
  In x (head_links d) /\ outdated x = false /\ is_fallback B x = false.
Proof.
  unfold swept, fallbacks, freshLinks. intros H.
  apply in_remove_all in H as [H Hfb]. apply in_remove_all in H as Hh.
  destruct Hh as [Hh Hout]. split; [exact Hh|]. split.
  - destruct (outdated x) eqn:Ho; [|reflexivity].
    rewrite existsb_lid_self in Hout; [discriminate|].
    apply List.filter_In. auto.
  - destruct (is_fallback B x) eqn:Hf; [|reflexivity].
    rewrite existsb_lid_self in Hfb; [discriminate|].
    apply List.filter_In. auto.
Qed.

Lemma swept_complete (x : link) :
  List.NoDup (List.map lid (head_links d)) ->
  In x (head_links d) -> outdated x = false -> is_fallback B x = false ->
  In x (swept B d).
Proof.
  intros Hnd Hx Ho Hf. unfold swept, fallbacks, freshLinks.
  assert (H1 : In x (remove_all (List.filter outdated (head_links d)) (head_links d))).
  { apply in_remove_all. split; [exact Hx|].
    apply (existsb_lid_other (head_links d)); auto.
    - intros r Hr. apply List.filter_In in Hr. tauto.
    - intros Hin. apply List.filter_In in Hin. destruct Hin. congruence. }
  apply in_remove_all. split; [exact H1|].
  eapply existsb_lid_other; [apply NoDup_lid_remove_all, Hnd | exact H1 | |].
  - intros r Hr. apply List.filter_In in Hr. tauto.
  - intros Hin. apply List.filter_In in Hin. destruct Hin. congruence.
Qed.

Lemma swept_NoDup :
  List.NoDup (List.map lid (head_links d)) -> List.NoDup (List.map lid (swept B d)).
Proof.
  intros H. unfold swept, fallbacks, freshLinks.
  apply NoDup_lid_remove_all, NoDup_lid_remove_all, H.
Qed.

Lemma kept_sound (x : link) : In x (kept B d) -> In x (swept B d).
Proof. unfold kept. intros H. apply in_remove_all in H. tauto. Qed.

Lemma hashedLinks_swept (x : link) : In x (hashedLinks B d) -> In x (swept B d).
Proof. unfold hashedLinks. intros H. apply List.filter_In in H. tauto. Qed.

(** after the third step at most the first hashed link is left *)
Lemma kept_hashed :
  List.filter (is_hashed B) (kept B d) =
  remove_all (List.tl (hashedLinks B d)) (firstn 1 (hashedLinks B d)).
Proof.
  unfold kept. rewrite filter_remove_all. fold (hashedLinks B d).
  destruct (hashedLinks B d) as [|e rest]; [reflexivity|].
  apply remove_all_head.
Qed.


Lemma hashedLinks_head_not_in_tail (e : link) (rest : list link) :
  List.NoDup (List.map lid (head_links d)) ->
  hashedLinks B d = e :: rest ->
  existsb (fun l => lid e =? lid l) rest = false.
Proof.
  intros Hnd He.
  assert (Hnd' : List.NoDup (List.map lid (e :: rest))).
  { rewrite <- He. apply NoDup_lid_filter, swept_NoDup, Hnd. }
  simpl in Hnd'. apply List.NoDup_cons_iff in Hnd' as [Hnotin _].
  destruct (existsb _ rest) eqn:Hex; [|reflexivity].
  apply List.existsb_exists in Hex as (r & Hr & Hid). apply Nat.eqb_eq in Hid.
  exfalso. apply Hnotin. rewrite Hid. apply List.in_map, Hr.
Qed.

Lemma kept_hashed_existing (e : link) :
  List.NoDup (List.map lid (head_links d)) ->
  List.head (hashedLinks B d) = Some e ->
  List.filter (is_hashed B) (kept B d) = [e].
Proof.
  intros Hnd He. rewrite kept_hashed.
  destruct (hashedLinks B d) as [|e' rest] eqn:Hh; [discriminate|].
  injection He as ->. simpl. unfold remove_all. simpl.
  rewrite (hashedLinks_head_not_in_tail e rest Hnd Hh). reflexivity.
Qed.

Lemma kept_complete (x : link) :
  List.NoDup (List.map lid (head_links d)) ->
  In x (swept B d) ->
  is_hashed B x = false \/ List.head (hashedLinks B d) = Some x ->
  In x (kept B d).
Proof.
  intros Hnd Hx Hcase. unfold kept. apply in_remove_all. split; [exact Hx|].
  destruct Hcase as [Hnh | Hfirst].
  - apply (existsb_lid_other (swept B d)); auto using swept_NoDup.
    + intros r Hr. apply hashedLinks_swept.
      destruct (hashedLinks B d); [destruct Hr | right; exact Hr].
    + intros Hin.
      assert (Hin' : In x (hashedLinks B d))
        by (destruct (hashedLinks B d); [destruct Hin | right; exact Hin]).
      apply List.filter_In in Hin'. destruct Hin'. congruence.
  - destruct (hashedLinks B d) as [|e rest] eqn:Hh; [discriminate|].
    injection Hfirst as ->. apply (hashedLinks_head_not_in_tail x rest Hnd Hh).
Qed.

Lemma kept_no_hashed :
  hashedLinks B d = [] -> kept B d = swept B d.
Proof. intros H. unfold kept. rewrite H. apply remove_all_nil. Qed.

Lemma new_link_not_outdated : outdated (new_link B d) = false.
Proof.
  unfold outdated, new_link, basePath. simpl. rewrite file_of_injected. reflexivity.
Qed.

(** the head after a run that returned the link [l] *)
Lemma reconciled_head (l : link) (d' : document) :
  (l, d') = reconciled B d ->
  (List.head (hashedLinks B d) = Some l /\ head_links d' = kept B d /\
   next_id d' = next_id d) \/
  (hashedLinks B d = [] /\ l = new_link B d /\
   head_links d' = swept B d ++ [l] /\ next_id d' = S (next_id d)).
Proof.
  unfold reconciled. destruct (hashedLinks B d) as [|e rest] eqn:Hh; simpl.
  - intros [= -> ->]. right. simpl. rewrite (kept_no_hashed Hh). auto.
  - intros [= -> ->]. left. auto.
Qed.

Lemma reconciled_scripts (l : link) (d' : document) :
  (l, d') = reconciled B d ->
  currentScript d' = currentScript d /\ scripts d' = scripts d.
Proof.
  unfold reconciled. destruct (List.head (hashedLinks B d)); intros [= -> ->]; auto.
Qed.

End LinkSet.

(** ** Stylesheet injection: the specification's properties *)

Section Injection.

Variable B : browser.

Lemma wf_reconciled (d d' : document) (l : link) :
  wf_document d -> (l, d') = reconciled B d -> wf_document d'.
Proof.
  intros [Hnd Hlt] Hrec. rewrite List.Forall_forall in Hlt.
  unfold wf_document. rewrite List.Forall_forall.
  destruct (reconciled_head B d l d' Hrec) as [(_ & -> & ->) | (Hnone & -> & -> & ->)].
  - split.
    + apply NoDup_lid_remove_all, swept_NoDup, Hnd.
    + intros x Hx. apply Hlt. apply kept_sound, swept_sound in Hx. tauto.
  - split.
    + rewrite List.map_app. simpl. apply List.NoDup_app.
      * apply swept_NoDup, Hnd.
      * apply List.NoDup_cons; [intros [] | apply List.NoDup_nil].
      * intros i Hi [<- | []]. apply List.in_map_iff in Hi as (x & Hid & Hx).
        apply swept_sound in Hx as (Hx & _). apply Hlt in Hx. lia.
    + intros x Hx. apply List.in_app_iff in Hx as [Hx | [<- | []]].
      * apply swept_sound in Hx as (Hx & _). apply Hlt in Hx. lia.
      * simpl. lia.
Qed.

(** injectCss keeps the document well formed *)
Lemma injectCss_wf (w w' : world) (l : link) :
  wf_document (w_doc w) -> injectCss B w = (inr (Some l), w') -> wf_document (w_doc w').
Proof. intros Hwf Hrun. eapply wf_reconciled, injectCss_success, Hrun. exact Hwf. Qed.

(** X19. Stale-hash eviction, where it holds: a link of the head whose file
    part as the code computes it (the last [/]-segment of its whole href
    attribute, then cut at the first [?] and the first [#]) matches
    [core(.hex)?.min.css] without being the current hashed file name is no
    longer in the head after injectCss has run. *)
Theorem injectCss_evicts_stale (w w' : world) (l x : link) :
  injectCss B w = (inr (Some l), w') ->
  In x (head_links (w_doc w)) ->
  coreRegex_test (file_of (or_empty (l_href x))) = true ->
  file_of (or_empty (l_href x)) <> cssFile ->
  ~ In x (head_links (w_doc w')).
Proof.
  intros Hrun Hx Hre Hne Hin.
  assert (Hout : outdated x = true).
  { unfold outdated. rewrite Hre. simpl. apply negb_true_iff.
    destruct (String.eqb_spec (file_of (or_empty (l_href x))) cssFile); congruence. }
  apply injectCss_success in Hrun.
  destruct (reconciled_head B _ l _ Hrun) as [(_ & Hhead & _) | (_ & Hl & Hhead & _)];
    rewrite Hhead in Hin.
  - apply kept_sound, swept_sound in Hin. destruct Hin as (_ & Ho & _). congruence.
  - apply List.in_app_iff in Hin as [Hin | [<- | []]].
    + apply swept_sound in Hin. destruct Hin as (_ & Ho & _). congruence.
    + rewrite Hl, new_link_not_outdated in Hout. discriminate.
Qed.


(** the link a run returns is in the head, and when its href contains the
    hashed file name it is the only such link *)
Lemma injectCss_exactly_one (w w' : world) (l : link) :
  wf_document (w_doc w) ->
  injectCss B w = (inr (Some l), w') ->
  In l (head_links (w_doc w')) /\
  (is_hashed B l = true -> List.filter (is_hashed B) (head_links (w_doc w')) = [l]).
Proof.
  intros [Hnd _] Hrun. apply injectCss_success in Hrun.
  destruct (reconciled_head B _ l _ Hrun) as [(He & -> & _) | (Hnone & _ & -> & _)].
  - split.
    + apply kept_complete; auto.
      destruct (hashedLinks B (w_doc w)) as [|e rest] eqn:Hh; [discriminate|].
      injection He as ->. apply (hashedLinks_swept B (w_doc w)). rewrite Hh. left. reflexivity.
    + intros _. apply kept_hashed_existing; assumption.
  - split; [apply List.in_app_iff; right; left; reflexivity|].
    intros Hl. rewrite List.filter_app. fold (hashedLinks B (w_doc w)).
    rewrite Hnone. simpl. rewrite Hl. reflexivity.
Qed.

Lemma basePath_reconciled (d d' : document) (l : link) :
  (l, d') = reconciled B d -> basePath B d' = basePath B d.
Proof.
  intros H. apply reconciled_scripts in H as [Hcs Hss].
  unfold basePath, script_of. rewrite Hcs, Hss. reflexivity.
Qed.

(** a second run on a reconciled document changes nothing *)
Lemma reconciled_fixpoint (d d' : document) (l : link) :
  wf_document d ->
  (l, d') = reconciled B d ->
  is_hashed B l = true -> is_fallback B l = false ->
  reconciled B d' = (l, d').
Proof.
  intros Hwf Hrec Hl Hnf. destruct Hwf as [Hnd Hlt].
  assert (Hclean : forall x, In x (head_links d') ->
                             outdated x = false /\ is_fallback B x = false).
  { intros x Hx.
    destruct (reconciled_head B d l d' Hrec) as [(_ & Hhead & _) | (_ & Hnew & Hhead & _)];
      rewrite Hhead in Hx.
    - apply kept_sound, swept_sound in Hx. tauto.
    - apply List.in_app_iff in Hx as [Hx | [<- | []]].
      + apply swept_sound in Hx. tauto.
      + split; [rewrite Hnew; apply new_link_not_outdated | exact Hnf]. }
  assert (Hfresh : swept B d' = head_links d').
  { unfold swept, fallbacks, freshLinks.
    rewrite (filter_none outdated) by (intros x Hx; apply Hclean, Hx).
    rewrite remove_all_nil.
    rewrite (filter_none (is_fallback B)) by (intros x Hx; apply Hclean, Hx).
    apply remove_all_nil. }
  assert (Hhashed : hashedLinks B d' = [l]).
  { unfold hashedLinks. rewrite Hfresh.
    destruct (reconciled_head B d l d' Hrec) as [(He & -> & _) | (Hnone & _ & -> & _)].
    - apply kept_hashed_existing; assumption.
    - rewrite List.filter_app. fold (hashedLinks B d). rewrite Hnone. simpl.
      rewrite Hl. reflexivity. }
  unfold reconciled, kept. rewrite Hhashed. simpl. rewrite remove_all_nil, Hfresh.
  destruct d'; reflexivity.
Qed.

(** X8. Idempotence, where it holds. In a well-formed document, two runs of
    injectCss in a row that each return a link leave exactly one link whose
    href contains the current hashed file name, as long as a link created
    by injectCss has such an href; and the second run returns the very link
    the first one returned and leaves the document as the first run left
    it, provided the href of that link does not contain [qore.css]. *)
Theorem injectCss_twice (w w1 w2 : world) (l1 l2 : link) :
  wf_document (w_doc w) ->
  injectCss B w = (inr (Some l1), w1) ->
  injectCss B w1 = (inr (Some l2), w2) ->
  is_hashed B (new_link B (w_doc w)) = true ->
  List.filter (is_hashed B) (head_links (w_doc w2)) = [l2] /\
  (is_fallback B l1 = false ->
   l2 = l1 /\ In l1 (head_links (w_doc w1)) /\ w_doc w2 = w_doc w1).
Proof.
  intros Hwf Hrun1 Hrun2 Hnew.
  pose proof (injectCss_wf _ _ _ Hwf Hrun1) as Hwf1.
  pose proof (injectCss_success _ _ _ _ Hrun1) as Hrec1.
  pose proof (injectCss_success _ _ _ _ Hrun2) as Hrec2.
  assert (Hl1 : is_hashed B l1 = true).
  { destruct (reconciled_head B _ l1 _ Hrec1) as [(He & _) | (_ & -> & _)]; [|exact Hnew].
    destruct (hashedLinks B (w_doc w)) as [|e rest] eqn:Hh; [discriminate|].
    injection He as ->.
    assert (Hin : In l1 (hashedLinks B (w_doc w))) by (rewrite Hh; left; reflexivity).
    apply List.filter_In in Hin. tauto. }
  assert (Hl2 : is_hashed B l2 = true).
  { destruct (reconciled_head B _ l2 _ Hrec2) as [(He & _) | (_ & -> & _)].
    - destruct (hashedLinks B (w_doc w1)) as [|e rest] eqn:Hh; [discriminate|].
      injection He as ->.
      assert (Hin : In l2 (hashedLinks B (w_doc w1))) by (rewrite Hh; left; reflexivity).
      apply List.filter_In in Hin. tauto.
    - unfold is_hashed, href, new_link in *. simpl in *.
      rewrite (basePath_reconciled _ _ _ Hrec1). exact Hnew. }
  split.
  - apply (injectCss_exactly_one _ _ _ Hwf1 Hrun2), Hl2.
  - intros Hnf.
    pose proof (reconciled_fixpoint _ _ _ Hwf Hrec1 Hl1 Hnf) as Hfix.
    rewrite Hfix in Hrec2. injection Hrec2 as -> ->.
    split; [reflexivity|]. split; [|reflexivity].
    apply (injectCss_exactly_one _ _ _ Hwf Hrun1).
Qed.

(** X9. Frame, where it holds. In a well-formed document, a link of the head
    whose file part does not match [core(.hex)?.min.css], whose href does
    not contain [qore.css], and whose href either does not contain the
    current hashed file name or is that of the link injectCss returns, is
    still in the head, unchanged, after the run. *)
Theorem injectCss_frame (w w' : world) (l x : link) :
  wf_document (w_doc w) ->
  injectCss B w = (inr (Some l), w') ->
  In x (head_links (w_doc w)) ->
  coreRegex_test (file_of (or_empty (l_href x))) = false ->
  is_fallback B x = false ->
  is_hashed B x = false \/ x = l ->
  In x (head_links (w_doc w')).
Proof.
  intros [Hnd _] Hrun Hx Hre Hnf Hcase.
  assert (Hout : outdated x = false) by (unfold outdated; rewrite Hre; reflexivity).
  pose proof (swept_complete B _ x Hnd Hx Hout Hnf) as Hfresh.
  apply injectCss_success in Hrun.
  destruct (reconciled_head B _ l _ Hrun) as [(He & -> & _) | (Hnone & _ & -> & _)].
  - apply kept_complete; auto. destruct Hcase as [Hh | ->]; auto.
  - apply List.in_app_iff. left. exact Hfresh.
Qed.

End Injection.

(** ** The load-failure handler of the injected link *)

Section Fallback.

Variable B : browser.

Lemma find_link_last (h : list link) (l : link) :
  (forall x, In x h -> lid x <> lid l) ->
  List.find (fun x => lid x =? lid l) (h ++ [l]) = Some l.
Proof.
  intros H. induction h as [|a h IH]; simpl.
  - rewrite Nat.eqb_refl. reflexivity.
  - destruct (Nat.eqb_spec (lid a) (lid l)) as [Heq | _].
    + exfalso. apply (H a); [left; reflexivity | exact Heq].
    + apply IH. intros x Hx. apply H. right. exact Hx.
Qed.

Lemma map_target_last (f : link -> link) (h : list link) (l : link) :
  (forall x, In x h -> lid x <> lid l) ->
  List.map (fun x => if lid x =? lid l then f x else x) (h ++ [l]) = h ++ [f l].
Proof.
  intros H. induction h as [|a h IH]; simpl.
  - rewrite Nat.eqb_refl. reflexivity.
  - destruct (Nat.eqb_spec (lid a) (lid l)) as [Heq | _].
    + exfalso. apply (H a); [left; reflexivity | exact Heq].
    + f_equal. apply IH. intros x Hx. apply H. right. exact Hx.
Qed.

(** an error event on a link without handler runs nothing *)
Lemma dispatch_error_detached (target : nat) (w : world) :
  (forall x, find_link target (w_doc w) = Some x -> l_onerror x = None) ->
  dispatch_error B target w = (inr tt, w).
Proof.
  unfold dispatch_error, bind, read, find_link. intros H.
  destruct (List.find _ (head_links (w_doc w))) as [x|]; [|reflexivity].
  rewrite (H x eq_refl). reflexivity.
Qed.

(** C6, as the code has it. The link injectCss creates carries a handler;
    running it sets the href of the link to the base path followed by
    [qore.css] and clears [onerror]; from then on, whatever the href
    becomes, an error event delivered to the link runs nothing as long as no
    handler is attached again. The stored function itself has no guard:
    called again it assigns the same address, so it leaves the link, and
    the whole document, as they are exactly as long as the href of the link
    is still that address and its [onerror] is still cleared, which is the
    case right after the first call. *)
Theorem injectCss_fallback_once (w w1 : world) (l : link) :
  wf_document (w_doc w) ->
  injectCss B w = (inr (Some l), w1) ->
  ~ In l (head_links (w_doc w)) ->
  let plain := Link (lid l) (Some (basePath B (w_doc w) +:+ "qore.css"))
                    (l_rel l) (l_type l) None in
  exists h,
    l_onerror l = Some h /\
    find_link (lid l) (w_doc w1) = Some l /\
    (run_handler B h w1).1 = inr tt /\
    let w2 := (run_handler B h w1).2 in
    find_link (lid l) (w_doc w2) = Some plain /\
    (forall w3, (forall x, find_link (lid l) (w_doc w3) = Some x -> l_onerror x = None) ->
                dispatch_error B (lid l) w3 = (inr tt, w3)) /\
    (run_handler B h w2).1 = inr tt /\
    w_doc (run_handler B h w2).2 = w_doc w2 /\
    (forall w3,
       (forall x, In x (head_links (w_doc w3)) -> lid x = lid l ->
                  l_href x = Some (basePath B (w_doc w) +:+ "qore.css") /\
                  l_onerror x = None) ->
       (run_handler B h w3).1 = inr tt /\
       w_doc (run_handler B h w3).2 = w_doc w3).
Proof.
  intros [Hnd Hlt] Hrun Hnew plain. rewrite List.Forall_forall in Hlt.
  apply injectCss_success in Hrun.
  destruct (reconciled_head B _ l _ Hrun) as [(He & _) | (_ & Hl & Hhead & _)].
  { exfalso. apply Hnew.
    destruct (hashedLinks B (w_doc w)) as [|e rest] eqn:Hh; [discriminate|].
    injection He as ->.
    assert (Hin : In l (hashedLinks B (w_doc w))) by (rewrite Hh; left; reflexivity).
    apply hashedLinks_swept, swept_sound in Hin. tauto. }
  assert (Hother : forall x, In x (swept B (w_doc w)) -> lid x <> lid l).
  { intros x Hx. apply swept_sound in Hx as (Hx & _). apply Hlt in Hx.
    rewrite Hl. simpl. lia. }
  assert (Hother' : forall x, In x (swept B (w_doc w)) -> lid x <> lid plain)
    by exact Hother.
  exists (FallbackHandler (lid l) (basePath B (w_doc w))).
  split; [rewrite Hl; reflexivity|].
  split; [unfold find_link; rewrite Hhead; apply find_link_last, Hother|].
  split; [reflexivity|].
  assert (Hhead2 : head_links
                     (w_doc (run_handler B (FallbackHandler (lid l) (basePath B (w_doc w))) w1).2)
                   = swept B (w_doc w) ++ [plain]).
  { simpl. rewrite Hhead. apply (map_target_last
      (fun x => Link (lid x) (Some (basePath B (w_doc w) +:+ "qore.css"))
                     (l_rel x) (l_type x) None)), Hother. }
  pose proof (find_link_last _ plain Hother') as Hfind.
  change (lid plain) with (lid l) in Hfind.
  cbv zeta. split; [|split; [|split; [|split]]].
  - unfold find_link. rewrite Hhead2. exact Hfind.
  - intros w3 Hdetached. apply dispatch_error_detached, Hdetached.
  - reflexivity.
  - set (w2 := (run_handler B _ w1).2) in *.
    change (w_doc (run_handler B (FallbackHandler (lid l) (basePath B (w_doc w))) w2).2)
      with (Document (currentScript (w_doc w2)) (scripts (w_doc w2))
              (List.map (fun x =>
                 if lid x =? lid l
                 then Link (lid x) (Some (basePath B (w_doc w) +:+ "qore.css"))
                           (l_rel x) (l_type x) None
                 else x) (head_links (w_doc w2)))
              (next_id (w_doc w2))).
    rewrite Hhead2.
    pose proof (map_target_last
      (fun x => Link (lid x) (Some (basePath B (w_doc w) +:+ "qore.css"))
                     (l_rel x) (l_type x) None) _ plain Hother') as Hmap.
    change (lid plain) with (lid l) in Hmap. rewrite Hmap.
    transitivity (Document (currentScript (w_doc w2)) (scripts (w_doc w2))
                    (swept B (w_doc w) ++ [plain]) (next_id (w_doc w2)));
      [reflexivity|].
    rewrite <- Hhead2. destruct (w_doc w2); reflexivity.
  - intros w3 Hstill. split; [reflexivity|].
    change (w_doc (run_handler B (FallbackHandler (lid l) (basePath B (w_doc w))) w3).2)
      with (Document (currentScript (w_doc w3)) (scripts (w_doc w3))
              (List.map (fun x =>
                 if lid x =? lid l
                 then Link (lid x) (Some (basePath B (w_doc w) +:+ "qore.css"))
                           (l_rel x) (l_type x) None
                 else x) (head_links (w_doc w3)))
              (next_id (w_doc w3))).
    replace (List.map _ (head_links (w_doc w3))) with (head_links (w_doc w3));
      [destruct (w_doc w3); reflexivity|].
    rewrite <- (List.map_id (head_links (w_doc w3))) at 1.
    apply List.map_ext_in. intros x Hx.
    destruct (Nat.eqb_spec (lid x) (lid l)) as [Hid | _]; [|reflexivity].
    destruct (Hstill x Hx Hid) as [Hhref Hon].
    destruct x as [i a r t o]. simpl in *. rewrite Hhref, Hon. reflexivity.
Qed.

End Fallback.

(** ** Stylesheet injection on the sample pages *)

Lemma injectCss_never_raises_witness :
  injectCss failing_browser (loaded stale_page) =
    (inr None,
     World stale_page
       [Log "injectCss is running with null"; Log "injectCss basePath ";
        Err "injectCss failed: DOMException"] 4).
Proof.
  apply (proj1 (proj2 (injectCss_never_raises failing_browser (loaded stale_page)))
           (Error "DOMException")
           (World stale_page
              [Log "injectCss is running with null"; Log "injectCss basePath "] 4)).
  vm_compute. reflexivity.
Defined.

Lemma injectCss_evicts_stale_witness :
  ~ In (stylesheet 0 "https://example.com/core.123.min.css?old=1")
       (head_links (w_doc (injectCss plain_browser (loaded crowded_page)).2)).
Proof.
  apply (injectCss_evicts_stale plain_browser (loaded crowded_page)
           (injectCss plain_browser (loaded crowded_page)).2
           (stylesheet 3 "https://example.com/core.5c7df4d0.min.css")
           (stylesheet 0 "https://example.com/core.123.min.css?old=1")).
  - vm_compute. reflexivity.
  - simpl. auto.
  - vm_compute. reflexivity.
  - vm_compute. discriminate.
Defined.



(** C2 fails on a page that loads the module from a directory named
    [qore.css]: the fallback sweep tests the whole href for [qore.css], where
    the first loop compares the file part, so the second run removes the
    hashed link of the first run as a fallback and creates and returns
    another element. *)
Lemma injectCss_twice_recreates :
  wf_document qore_dir_page /\
  exists l1 w1 l2 w2,
    injectCss plain_browser (loaded qore_dir_page) = (inr (Some l1), w1) /\
    injectCss plain_browser w1 = (inr (Some l2), w2) /\
    In l1 (head_links (w_doc w1)) /\
    l2 <> l1 /\
    ~ In l1 (head_links (w_doc w2)).
Proof.
  split; [split; [apply List.NoDup_nil | apply List.Forall_nil]|].
  eexists _, _, _, _. split; [vm_compute; reflexivity|].
  split; [vm_compute; reflexivity|].
  split; [left; reflexivity|].
  split; [discriminate|].
  intros [H | []]. discriminate H.
Qed.

Lemma wf_crowded_page : wf_document crowded_page.
Proof.
  split.
  - simpl. repeat (apply List.NoDup_cons; [simpl; intuition discriminate|]).
    apply List.NoDup_nil.
  - simpl. repeat (apply List.Forall_cons; [simpl; lia|]). apply List.Forall_nil.
Qed.

Lemma wf_cdn_page : wf_document cdn_page.
Proof. split; [apply List.NoDup_nil | apply List.Forall_nil]. Qed.

Lemma injectCss_twice_witness :
  let w1 := (injectCss plain_browser (loaded cdn_page)).2 in
  let w2 := (injectCss plain_browser w1).2 in
  length (List.filter (is_hashed plain_browser) (head_links (w_doc w2))) = 1 /\
  (injectCss plain_browser w1).1 = (injectCss plain_browser (loaded cdn_page)).1 /\
  w_doc w2 = w_doc w1.
Proof.
  intros w1 w2.
  destruct (injectCss_twice plain_browser (loaded cdn_page) w1 w2
              (new_link plain_browser cdn_page)
              (new_link plain_browser cdn_page)) as (Hone & Hsame).
  - exact wf_cdn_page.
  - vm_compute. reflexivity.
  - vm_compute. reflexivity.
  - vm_compute. reflexivity.
  - rewrite Hone. destruct Hsame as (_ & _ & Hdoc); [vm_compute; reflexivity|].
    split; [reflexivity|]. split; [vm_compute; reflexivity | exact Hdoc].
Defined.

(** C10 fails on a page that links the source map of the current hashed
    stylesheet after the stylesheet: the file part of the source map does
    not match the pattern and its href does not contain [qore.css], but the
    duplicate sweep tests the whole href for the hashed file name, where the
    first loop compares the file part, so the source map is removed as a
    duplicate. *)
Lemma injectCss_removes_source_map :
  let x := Link 1 (Some "https://example.com/core.5c7df4d0.min.css.map") "" "" None in
  wf_document sourcemap_page /\
  In x (head_links sourcemap_page) /\
  coreRegex_test (file_of (or_empty (l_href x))) = false /\
  includes (href plain_browser x) "qore.css" = false /\
  exists l w',
    injectCss plain_browser (loaded sourcemap_page) = (inr (Some l), w') /\
    ~ In x (head_links (w_doc w')).
Proof.
  intros x. split.
  { split.
    - simpl. repeat (apply List.NoDup_cons; [simpl; intuition discriminate|]).
      apply List.NoDup_nil.
    - simpl. repeat (apply List.Forall_cons; [simpl; lia|]). apply List.Forall_nil. }
  split; [right; left; reflexivity|].
  split; [vm_compute; reflexivity|]. split; [vm_compute; reflexivity|].
  eexists _, _. split; [vm_compute; reflexivity|].
  intros [H | []]. discriminate H.
Qed.

Lemma injectCss_frame_witness :
  In (stylesheet 2 "https://example.com/core.extra.css")
     (head_links (w_doc (injectCss plain_browser (loaded crowded_page)).2)).
Proof.
  apply (injectCss_frame plain_browser (loaded crowded_page)
           (injectCss plain_browser (loaded crowded_page)).2
           (stylesheet 3 "https://example.com/core.5c7df4d0.min.css")
           (stylesheet 2 "https://example.com/core.extra.css")).
  - exact wf_crowded_page.
  - vm_compute. reflexivity.
  - simpl. auto.
  - vm_compute. reflexivity.
  - vm_compute. reflexivity.
  - left. vm_compute. reflexivity.
Defined.

Lemma injectCss_fallback_once_witness :
  let w1 := (injectCss plain_browser (loaded cdn_page)).2 in
  let h := FallbackHandler 0 "https://cdn.example.com/lib/" in
  let w2 := (run_handler plain_browser h w1).2 in
  find_link 0 (w_doc w2) =
    Some (Link 0 (Some "https://cdn.example.com/lib/qore.css") "stylesheet" "text/css" None) /\
  w_doc (run_handler plain_browser h w2).2 = w_doc w2.
Proof.
  intros w1 h w2.
  destruct (injectCss_fallback_once plain_browser (loaded cdn_page) w1
              (new_link plain_browser cdn_page)) as (h' & Hh & _ & _ & Hfind & _ & _ & Hsame & _).
  - exact wf_cdn_page.
  - vm_compute. reflexivity.
  - simpl. tauto.
  - injection Hh as <-. split; [exact Hfind | exact Hsame].
Defined.

(** C3 fails on a page whose stale link has a [/] in its query string: the
    filename portion of [core.123.min.css?cb=/x], with query string and
    fragment stripped, is [core.123.min.css], which matches the pattern and
    is not the current file name; but the code takes the last [/]-segment of
    the whole href before it cuts at [?], finds [x], and keeps the link,
    where its comment says the query is stripped so that the pattern meets
    the file name. *)
Lemma injectCss_keeps_stale_slash_query :
  let x := stylesheet 0 "https://example.com/core.123.min.css?cb=/x" in
  wf_document slash_query_page /\
  head_links slash_query_page = [x] /\
  claimed_file_part (or_empty (l_href x)) = "core.123.min.css" /\
  coreRegex_test (claimed_file_part (or_empty (l_href x))) = true /\
  String.eqb (claimed_file_part (or_empty (l_href x))) cssFile = false /\
  file_of (or_empty (l_href x)) = "x" /\
  exists l w',
    injectCss plain_browser (loaded slash_query_page) = (inr (Some l), w') /\
    head_links (w_doc w') = [x; l].
Proof.
  intros x. split.
  { split.
    - simpl. repeat (apply List.NoDup_cons; [simpl; intuition discriminate|]).
      apply List.NoDup_nil.
    - simpl. repeat (apply List.Forall_cons; [simpl; lia|]). apply List.Forall_nil. }
  split; [reflexivity|]. split; [vm_compute; reflexivity|].
  split; [vm_compute; reflexivity|]. split; [vm_compute; reflexivity|].
  split; [vm_compute; reflexivity|].
  eexists _, _. split; vm_compute; reflexivity.
Qed.

(** C6 as stated fails: the stored function is not disarmed by the
    detachment. On the CDN page the handler of the created link is called,
    the address of the link is then set to [again.css], as the test of the
    handler does; an error event on the link now runs nothing, but calling
    the stored function again sets the href back to the plain stylesheet. *)
Lemma injectCss_handler_rewrites_again :
  let handle := FallbackHandler 0 "https://cdn.example.com/lib/" in
  let w1 := (injectCss plain_browser (loaded cdn_page)).2 in
  let w2 := (run_handler plain_browser handle w1).2 in
  let w3 := (set_href 0 "again.css" w2).2 in
  let w4 := (run_handler plain_browser handle w3).2 in
  find_link 0 (w_doc w1) =
    Some (Link 0 (Some "https://cdn.example.com/lib/core.5c7df4d0.min.css")
               "stylesheet" "text/css" (Some handle)) /\
  find_link 0 (w_doc w2) =
    Some (Link 0 (Some "https://cdn.example.com/lib/qore.css") "stylesheet" "text/css" None) /\
  find_link 0 (w_doc w3) = Some (Link 0 (Some "again.css") "stylesheet" "text/css" None) /\
  dispatch_error plain_browser 0 w3 = (inr tt, w3) /\
  find_link 0 (w_doc w4) =
    Some (Link 0 (Some "https://cdn.example.com/lib/qore.css") "stylesheet" "text/css" None).
Proof. vm_compute. repeat split. Qed.

(** ** The build orchestrator *)

Section BuildFacts.

Variable T : toolchain.

Lemma append_cancel_l (a b c : string) : a +:+ b = a +:+ c -> b = c.
Proof.
  induction a as [|x a IH]; [auto|].
  rewrite !append_cons. intros [= H]. auto.
Qed.

Lemma append_not_self (a b : string) : b <> "" -> a +:+ b <> a.
Proof.
  intros Hb H. apply Hb. induction a as [|x a IH]; [exact H|].
  rewrite append_cons in H. injection H as H. auto.
Qed.

(** the names the build writes are distinct, and only the artifact and its
    two variants are in the family *)
Lemma written_names_distinct (h : string) :
  let target := artifact h in
  target <> hashRecord /\ target <> moduleSource /\ target <> sourceFile /\
  target +:+ ".gz" <> hashRecord /\ target +:+ ".gz" <> moduleSource /\
  target +:+ ".gz" <> sourceFile /\
  target +:+ ".br" <> hashRecord /\ target +:+ ".br" <> moduleSource /\
  target +:+ ".br" <> sourceFile /\
  target +:+ ".gz" <> target /\ target +:+ ".br" <> target /\
  target +:+ ".br" <> target +:+ ".gz".
Proof.
  intros target. repeat split; try discriminate.
  - apply append_not_self. discriminate.
  - apply append_not_self. discriminate.
  - intros H. apply append_cancel_l in H. discriminate.
Qed.

Lemma in_scheduled (target name : string) (files : gmap string string) :
  In name (scheduled target files) <->
  is_Some (files !! name) /\ in_family name = true /\ name <> target.
Proof.
  unfold scheduled. rewrite List.filter_In, List.in_map_iff, andb_true_iff, negb_true_iff.
  split.
  - intros [((k & v) & <- & Hin) [Hfam Hne]]. simpl in *.
    apply list_elem_of_In, elem_of_map_to_list in Hin.
    split; [eauto|]. split; [exact Hfam|].
    intros ->. rewrite String.eqb_refl in Hne. discriminate.
  - intros ([v Hv] & Hfam & Hne). split; [|split; [exact Hfam|]].
    + exists (name, v). split; [reflexivity|].
      apply list_elem_of_In, elem_of_map_to_list, Hv.
    + destruct (String.eqb_spec name target); congruence.
Qed.

(** the deletions of the Artifact Writer when every failure is "not found":
    the cleanup completes, and touches no other file *)
Lemma cleanup_tolerant (names : list string) (files : gmap string string) :
  (forall n e, In n names -> unlink_fault T n = Some e -> is_not_found e = true) ->
  exists cleaned,
    cleanup T names files = (None, cleaned) /\
    (forall k, ~ In k names -> cleaned !! k = files !! k) /\
    (forall k, (forall n, In n names -> unlink_fault T n = None) ->
               In k names -> cleaned !! k = None).
Proof.
  revert files. induction names as [|name rest IH]; intros files Hfaults; simpl.
  - exists files. split; [reflexivity|]. split; [reflexivity|]. intros k _ [].
  - assert (Hrest : forall n e, In n rest -> unlink_fault T n = Some e -> is_not_found e = true)
      by (intros n e Hn; apply Hfaults; right; exact Hn).
    unfold unlink. destruct (unlink_fault T name) as [e|] eqn:Hf.
    + rewrite (Hfaults name e (or_introl eq_refl) Hf).
      destruct (IH files Hrest) as (cleaned & Hc & Hother & Hgone).
      exists cleaned. split; [exact Hc|]. split.
      * intros k Hk. apply Hother. tauto.
      * intros k Hnone. specialize (Hnone name (or_introl eq_refl)). congruence.
    + destruct (files !! name) as [v|] eqn:Hv.
      * destruct (IH (delete name files) Hrest) as (cleaned & Hc & Hother & Hgone).
        exists cleaned. split; [exact Hc|]. split.
        -- intros k Hk. rewrite Hother by tauto. apply lookup_delete_ne. tauto.
        -- intros k Hnone [<- | Hk]; [|apply Hgone; auto].
           destruct (List.in_dec String.string_dec name rest) as [Hin | Hnin];
             [apply Hgone; auto|].
           rewrite Hother by exact Hnin. apply lookup_delete_eq.
      * simpl. destruct (IH files Hrest) as (cleaned & Hc & Hother & Hgone).
        exists cleaned. split; [exact Hc|]. split.
        -- intros k Hk. apply Hother. tauto.
        -- intros k Hnone [<- | Hk]; [|apply Hgone; auto].
           destruct (List.in_dec String.string_dec name rest) as [Hin | Hnin];
             [apply Hgone; auto|].
           rewrite Hother by exact Hnin. exact Hv.
Qed.

(** any other deletion failure stops the cleanup with that error *)
Lemma cleanup_propagates (names : list string) (files : gmap string string) (n : string) (e : error) :
  In n names -> unlink_fault T n = Some e -> is_not_found e = false ->
  exists n' e' remaining,
    cleanup T names files = (Some e', remaining) /\
    In n' names /\ unlink_fault T n' = Some e' /\ is_not_found e' = false.
Proof.
  revert files. induction names as [|name rest IH]; intros files Hn Hf Hnf; [destruct Hn|].
  simpl. unfold unlink. destruct (unlink_fault T name) as [e0|] eqn:Hf0.
  - destruct (is_not_found e0) eqn:Hnf0.
    + destruct Hn as [-> | Hn]; [congruence|].
      destruct (IH files Hn Hf Hnf) as (n' & e' & remaining & Hc & Hin & Hf' & Hnf').
      exists n', e', remaining. auto.
    + exists name, e0, files. auto.
  - destruct Hn as [-> | Hn]; [congruence|].
    destruct (files !! name).
    + destruct (IH (delete name files) Hn Hf Hnf) as (n' & e' & remaining & Hc & Hin & Hf' & Hnf').
      exists n', e', remaining. auto.
    + simpl. destruct (IH files Hn Hf Hnf) as (n' & e' & remaining & Hc & Hin & Hf' & Hnf').
      exists n', e', remaining. auto.
Qed.

Lemma is_literal_artifact (h rest : string) :
  is_hash h = true -> is_literal (String.substring 0 21 (artifact h +:+ rest)) = true.
Proof.
  unfold is_hash. intros H. apply andb_true_iff in H as [Hlen Hhex].
  apply Nat.eqb_eq in Hlen.
  do 9 (destruct h as [|? h]; simpl in Hlen; try lia).
  match goal with
  | |- is_literal (String.substring 0 21 (artifact ?h +:+ rest)) = true =>
      replace (String.substring 0 21 (artifact h +:+ rest)) with ("core." +:+ h +:+ ".min.css")
        by (destruct rest; reflexivity);
      change (is_literal ("core." +:+ h +:+ ".min.css")) with (is_hash h && true)
  end.
  unfold is_hash. rewrite Hhex. reflexivity.
Qed.

Lemma patch_unfold (source target : string) :
  patch source target =
  if is_literal (String.substring 0 21 source)
  then Some (target +:+ String.substring 21 (String.length source - 21) source)
  else match source with
       | EmptyString => None
       | String c r => String c <$> patch r target
       end.
Proof. destruct source; reflexivity. Qed.

(** a patched module source still carries a literal to patch *)
Lemma patch_again (h source patched : string) :
  is_hash h = true ->
  patch source (artifact h) = Some patched ->
  is_Some (patch patched (artifact h)).
Proof.
  intros Hh. revert patched. induction source as [|c r IH]; intros patched;
    rewrite patch_unfold.
  - destruct (is_literal _); [|discriminate].
    intros [= <-]. rewrite patch_unfold, is_literal_artifact by exact Hh. eauto.
  - destruct (is_literal _).
    + intros [= <-]. rewrite patch_unfold, is_literal_artifact by exact Hh. eauto.
    + destruct (patch r (artifact h)) as [r'|] eqn:Hr; [|discriminate].
      intros [= <-]. rewrite patch_unfold.
      destruct (is_literal _); [eauto|].
      destruct (IH r' eq_refl) as [r'' ->]. simpl. eauto.
Qed.

End BuildFacts.

Section BuildRuns.

Variable T : toolchain.

Ltac names_differ :=
  solve [ congruence
        | unfold hashRecord, moduleSource, sourceFile; discriminate ].

(** what a successful build went through *)
Lemma build_success (files files1 : gmap string string) (h : string) :
  build T files = (inr h, files1) ->
  exists src css cleaned gz br js js',
    files !! sourceFile = Some src /\
    processed T src = inr css /\
    h = hasher T css /\
    cleanup T (scheduled (artifact h) files) files = (None, cleaned) /\
    gzip T css = inr gz /\ brotli T css = inr br /\
    cleaned !! moduleSource = Some js /\
    patch js (artifact h) = Some js' /\
    files1 = output_files h css gz br js' cleaned.
Proof.
  unfold build, processed.
  destruct (files !! sourceFile) as [src|]; [|discriminate].
  destruct (if offline T then inr src else processor T src) as [e|css] eqn:Hcss; [discriminate|].
  destruct (cleanup T _ files) as [[e|] cleaned] eqn:Hclean; [discriminate|].
  destruct (gzip T css) as [e|gz] eqn:Hgz; [discriminate|].
  destruct (brotli T css) as [e|br] eqn:Hbr; [discriminate|].
  destruct (_ !! moduleSource) as [js|] eqn:Hjs; [|discriminate].
  destruct (patch js _) as [js'|] eqn:Hpatch; [|discriminate].
  intros [= <- <-].
  exists src, css, cleaned, gz, br, js, js'.
  repeat (split; [first [reflexivity | eassumption]|]). split; [|split; [exact Hpatch | reflexivity]].
  destruct (written_names_distinct (hasher T css)) as (H1 & H2 & H3 & H4 & H5 & H6 & H7 & H8 & _).
  rewrite !lookup_insert_ne in Hjs by names_differ. exact Hjs.
Qed.

(** the steps of a build that succeed make the build succeed *)
Lemma build_run (files cleaned : gmap string string) (src css gz br js js' : string) :
  files !! sourceFile = Some src ->
  processed T src = inr css ->
  cleanup T (scheduled (artifact (hasher T css)) files) files = (None, cleaned) ->
  gzip T css = inr gz -> brotli T css = inr br ->
  cleaned !! moduleSource = Some js ->
  patch js (artifact (hasher T css)) = Some js' ->
  build T files = (inr (hasher T css), output_files (hasher T css) css gz br js' cleaned).
Proof.
  unfold build, processed. intros -> -> -> -> -> Hjs Hpatch.
  destruct (written_names_distinct (hasher T css)) as (H1 & H2 & H3 & H4 & H5 & H6 & H7 & H8 & _).
  rewrite !lookup_insert_ne by names_differ. rewrite Hjs, Hpatch. reflexivity.
Qed.

Lemma output_files_lookup (h css gz br js : string) (cleaned : gmap string string) :
  let out := output_files h css gz br js cleaned in
  out !! artifact h = Some css /\
  out !! (artifact h +:+ ".gz") = Some gz /\
  out !! (artifact h +:+ ".br") = Some br /\
  out !! hashRecord = Some h /\
  out !! moduleSource = Some js /\
  (forall k, k <> artifact h -> k <> artifact h +:+ ".gz" -> k <> artifact h +:+ ".br" ->
             k <> hashRecord -> k <> moduleSource -> out !! k = cleaned !! k).
Proof.
  destruct (written_names_distinct h)
    as (H1 & H2 & H3 & H4 & H5 & H6 & H7 & H8 & H9 & H10 & H11 & H12).
  unfold output_files. cbv zeta. repeat split.
  - rewrite !lookup_insert_ne by names_differ. apply lookup_insert_eq.
  - rewrite !lookup_insert_ne by names_differ. apply lookup_insert_eq.
  - rewrite !lookup_insert_ne by names_differ. apply lookup_insert_eq.
  - rewrite !lookup_insert_ne by names_differ. apply lookup_insert_eq.
  - apply lookup_insert_eq.
  - intros k K1 K2 K3 K4 K5. rewrite !lookup_insert_ne by names_differ. reflexivity.
Qed.

End BuildRuns.

Section BuildProperties.

Variable T : toolchain.

Lemma not_in_scheduled (target name : string) (files : gmap string string) :
  in_family name = false -> ~ In name (scheduled target files).
Proof. intros H Hin. apply in_scheduled in Hin. destruct Hin as (_ & Hf & _). congruence. Qed.

(** after a successful build with a working deletion primitive, the files of
    the family in the output directory are the artifact and its two
    compressed variants *)
Lemma build_single_artifact (files files1 : gmap string string) (h : string) :
  (forall name, unlink_fault T name = None) ->
  build T files = (inr h, files1) ->
  is_Some (files1 !! artifact h) /\
  is_Some (files1 !! (artifact h +:+ ".gz")) /\
  is_Some (files1 !! (artifact h +:+ ".br")) /\
  (forall name, is_Some (files1 !! name) -> in_family name = true ->
     name = artifact h \/ name = artifact h +:+ ".gz" \/ name = artifact h +:+ ".br").
Proof.
  intros Hnone Hbuild.
  destruct (build_success T _ _ _ Hbuild)
    as (src & css & cleaned & gz & br & js & js' & _ & _ & _ & Hclean & _ & _ & _ & _ & ->).
  destruct (output_files_lookup h css gz br js' cleaned) as (L1 & L2 & L3 & _ & _ & Lother).
  cbv zeta in *. rewrite L1, L2, L3. repeat (split; [eauto|]).
  intros name Hsome Hfam.
  destruct (String.string_dec name (artifact h)) as [|N1]; [auto|].
  destruct (String.string_dec name (artifact h +:+ ".gz")) as [|N2]; [auto|].
  destruct (String.string_dec name (artifact h +:+ ".br")) as [|N3]; [auto|].
  destruct (String.string_dec name hashRecord) as [->|N4]; [discriminate Hfam|].
  destruct (String.string_dec name moduleSource) as [->|N5]; [discriminate Hfam|].
  exfalso. rewrite Lother in Hsome by assumption.
  destruct (cleanup_tolerant T (scheduled (artifact h) files) files)
    as (cleaned' & Hclean' & Hother & Hgone).
  { intros n e _ Hf. rewrite Hnone in Hf. discriminate. }
  rewrite Hclean in Hclean'. injection Hclean' as <-.
  destruct (List.in_dec String.string_dec name (scheduled (artifact h) files)) as [Hin | Hnin].
  - rewrite Hgone in Hsome by auto. destruct Hsome as [? [=]].
  - rewrite Hother in Hsome by exact Hnin. apply Hnin, in_scheduled. auto.
Qed.

(** C1. Build idempotence: when a build has succeeded and returned a hash,
    a second build on the directory it left, with a working deletion
    primitive, succeeds and returns the same hash, and afterwards the files
    of the artifact family are exactly the hashed artifact and its gzip and
    brotli variants. *)
Theorem build_idempotent (files files1 : gmap string string) (h : string) :
  (forall name, unlink_fault T name = None) ->
  (forall css, is_hash (hasher T css) = true) ->
  build T files = (inr h, files1) ->
  exists files2,
    build T files1 = (inr h, files2) /\
    is_Some (files2 !! artifact h) /\
    is_Some (files2 !! (artifact h +:+ ".gz")) /\
    is_Some (files2 !! (artifact h +:+ ".br")) /\
    (forall name, is_Some (files2 !! name) -> in_family name = true ->
       name = artifact h \/ name = artifact h +:+ ".gz" \/ name = artifact h +:+ ".br").
Proof.
  intros Hnone Hhash Hbuild.
  destruct (build_success T _ _ _ Hbuild)
    as (src & css & cleaned & gz & br & js & js' &
        Hsrc & Hcss & -> & Hclean & Hgz & Hbr & Hjs & Hpatch & ->).
  set (h := hasher T css) in *.
  set (files1 := output_files h css gz br js' cleaned).
  destruct (output_files_lookup h css gz br js' cleaned) as (_ & _ & _ & _ & Ljs & Lother).
  fold files1 in Ljs, Lother. cbv zeta in Lother.
  destruct (written_names_distinct h) as (_ & _ & D3 & _ & _ & D6 & _ & _ & D9 & _).
  destruct (cleanup_tolerant T (scheduled (artifact h) files) files)
    as (cleaned0 & Hclean0 & Hother0 & _).
  { intros n e _ Hf. rewrite Hnone in Hf. discriminate. }
  rewrite Hclean in Hclean0. injection Hclean0 as <-.
  assert (Hsrc1 : files1 !! sourceFile = Some src).
  { rewrite Lother by (first [congruence | discriminate]).
    rewrite Hother0 by (apply not_in_scheduled; reflexivity). exact Hsrc. }
  destruct (cleanup_tolerant T (scheduled (artifact h) files1) files1)
    as (cleaned1 & Hclean1 & Hother1 & _).
  { intros n e _ Hf. rewrite Hnone in Hf. discriminate. }
  assert (Hjs1 : cleaned1 !! moduleSource = Some js').
  { rewrite Hother1 by (apply not_in_scheduled; reflexivity). exact Ljs. }
  destruct (patch_again h js js' (Hhash css) Hpatch) as [js'' Hpatch1].
  pose proof (build_run T files1 cleaned1 src css gz br js' js''
                Hsrc1 Hcss Hclean1 Hgz Hbr Hjs1 Hpatch1) as Hbuild1.
  fold h in Hbuild1.
  exists (output_files h css gz br js'' cleaned1). split; [exact Hbuild1|].
  apply (build_single_artifact files1 _ h Hnone Hbuild1).
Qed.

(** C7. Race-tolerant cleanup: when the build would succeed with a deletion
    primitive that never fails, it also succeeds, returns the same hash and
    writes the hashed artifact when deletions of scheduled files fail with
    "not found"; and when the deletion of a scheduled file fails with any
    other error, the build is rejected with such a deletion error. *)
Theorem build_race_tolerant (files : gmap string string) :
  (forall h files0,
     build (reliable T) files = (inr h, files0) ->
     (forall n e, In n (scheduled (artifact h) files) ->
                  unlink_fault T n = Some e -> is_not_found e = true) ->
     exists files' css,
       build T files = (inr h, files') /\
       files' !! artifact h = Some css /\ hasher T css = h) /\
  (forall src css n e,
     files !! sourceFile = Some src ->
     processed T src = inr css ->
     In n (scheduled (artifact (hasher T css)) files) ->
     unlink_fault T n = Some e -> is_not_found e = false ->
     exists n' e' remaining,
       build T files = (inl e', remaining) /\
       In n' (scheduled (artifact (hasher T css)) files) /\
       unlink_fault T n' = Some e' /\ is_not_found e' = false).
Proof.
  split.
  - intros h files0 Hbuild Honly.
    destruct (build_success (reliable T) _ _ _ Hbuild)
      as (src & css & cleaned0 & gz & br & js & js' &
          Hsrc & Hcss & -> & Hclean0 & Hgz & Hbr & Hjs & Hpatch & ->).
    change (hasher (reliable T) css) with (hasher T css) in *.
    change (processed (reliable T) src) with (processed T src) in Hcss.
    change (gzip (reliable T) css) with (gzip T css) in Hgz.
    change (brotli (reliable T) css) with (brotli T css) in Hbr.
    destruct (cleanup_tolerant (reliable T) (scheduled (artifact (hasher T css)) files) files)
      as (c0 & Hc0 & Hother0 & _); [intros n e _ [=]|].
    rewrite Hclean0 in Hc0. injection Hc0 as <-.
    destruct (cleanup_tolerant T (scheduled (artifact (hasher T css)) files) files Honly)
      as (cleaned & Hclean & Hother & _).
    assert (Hjs' : cleaned !! moduleSource = Some js).
    { rewrite Hother by (apply not_in_scheduled; reflexivity).
      rewrite <- Hother0 by (apply not_in_scheduled; reflexivity). exact Hjs. }
    exists (output_files (hasher T css) css gz br js' cleaned), css.
    split; [apply (build_run T files cleaned src css gz br js js'); assumption|].
    split; [apply output_files_lookup | reflexivity].
  - intros src css n e Hsrc Hcss Hn Hf Hnf.
    destruct (cleanup_propagates T _ files n e Hn Hf Hnf)
      as (n' & e' & remaining & Hclean & Hin & Hf' & Hnf').
    exists n', e', remaining. split; [|auto].
    unfold build. unfold processed in Hcss. rewrite Hsrc, Hcss, Hclean. reflexivity.
Qed.

End BuildProperties.

Lemma build_idempotent_witness :
  exists files1 files2,
    build (test_toolchain (fun _ => None)) seeded_directory = (inr "5c7df4d0", files1) /\
    build (test_toolchain (fun _ => None)) files1 = (inr "5c7df4d0", files2) /\
    forall name, is_Some (files2 !! name) -> in_family name = true ->
      name = "core.5c7df4d0.min.css" \/ name = "core.5c7df4d0.min.css.gz" \/
      name = "core.5c7df4d0.min.css.br".
Proof.
  assert (Hfirst : build (test_toolchain (fun _ => None)) seeded_directory =
                   (inr "5c7df4d0", (build (test_toolchain (fun _ => None)) seeded_directory).2))
    by (vm_compute; reflexivity).
  destruct (build_idempotent (test_toolchain (fun _ => None)) seeded_directory
              (build (test_toolchain (fun _ => None)) seeded_directory).2 "5c7df4d0")
    as (files2 & Hsecond & _ & _ & _ & Hfamily).
  - reflexivity.
  - intros css. simpl. destruct (String.eqb css "body{}"); reflexivity.
  - exact Hfirst.
  - eexists _, files2. split; [exact Hfirst|]. split; [exact Hsecond | exact Hfamily].
Defined.

Lemma build_race_tolerant_witness :
  (exists files' css,
     build (test_toolchain (deadbeef_fails "ENOENT")) seeded_directory = (inr "5c7df4d0", files') /\
     files' !! "core.5c7df4d0.min.css" = Some css) /\
  (exists e remaining,
     build (test_toolchain (deadbeef_fails "EPERM")) seeded_directory = (inl e, remaining) /\
     code e = "EPERM").
Proof.
  split.
  - destruct (proj1 (build_race_tolerant (test_toolchain (deadbeef_fails "ENOENT"))
                       seeded_directory) "5c7df4d0"
                    (build (reliable (test_toolchain (deadbeef_fails "ENOENT")))
                           seeded_directory).2)
      as (files' & css & Hbuild & Hfile & _).
    + vm_compute. reflexivity.
    + intros n e _. unfold test_toolchain, deadbeef_fails. simpl.
      destruct (includes n "deadbeef"); [intros [= <-]; reflexivity | discriminate].
    + exists files', css. split; [exact Hbuild | exact Hfile].
  - destruct (proj2 (build_race_tolerant (test_toolchain (deadbeef_fails "EPERM"))
                       seeded_directory)
                    "body{}" "body{}" "core.deadbeef.min.css" (BuildError "EPERM" "unlink"))
      as (n' & e' & remaining & Hbuild & _ & Hfault & _).
    + reflexivity.
    + reflexivity.
    + vm_compute. auto.
    + reflexivity.
    + reflexivity.
    + exists e', remaining. split; [exact Hbuild|].
      unfold test_toolchain, deadbeef_fails in Hfault. simpl in Hfault.
      destruct (includes n' "deadbeef"); [injection Hfault as <-; reflexivity | discriminate].
Defined.

(** ** Addresses and file names *)

Section Segments.

Lemma lastIndexOf_cons_none (c a : ascii) (s : string) :
  lastIndexOf c (String a s) = (-1)%Z <-> a <> c /\ lastIndexOf c s = (-1)%Z.
Proof.
  simpl. pose proof (lastIndexOf_lower c s) as Hlow.
  destruct (0 <=? lastIndexOf c s)%Z eqn:Hi.
  - apply Z.leb_le in Hi. split; [lia | intros [_ H]; lia].
  - apply Z.leb_gt in Hi. destruct (Ascii.eqb_spec a c) as [-> | Hne].
    + split; [lia | intros [H _]; congruence].
    + split; [intros _; split; [exact Hne | lia] | reflexivity].
Qed.

Lemma lastIndexOf_app_none (c : ascii) (s t : string) :
  lastIndexOf c s = (-1)%Z -> lastIndexOf c t = (-1)%Z ->
  lastIndexOf c (s +:+ t) = (-1)%Z.
Proof.
  intros Hs Ht. induction s as [|a s IH]; [rewrite append_nil; exact Ht|].
  rewrite append_cons. apply lastIndexOf_cons_none in Hs as [Hne Hs].
  apply lastIndexOf_cons_none. auto.
Qed.

(** a string without the separator is its own single segment *)
Lemma split_none (c : ascii) (s : string) :
  lastIndexOf c s = (-1)%Z -> split c s = [s].
Proof.
  induction s as [|a s IH]; [reflexivity|].
  intros H. apply lastIndexOf_cons_none in H as [Hne Hs]. simpl.
  destruct (Ascii.eqb_spec a c); [congruence|]. rewrite (IH Hs). reflexivity.
Qed.





Lemma first_split_app (c : ascii) (n t : string) :
  lastIndexOf c n = (-1)%Z ->
  or_empty (first (split c (n +:+ t))) = n +:+ or_empty (first (split c t)).
Proof.
  intros Hn. induction n as [|a n IH]; [rewrite !append_nil; reflexivity|].
  apply lastIndexOf_cons_none in Hn as [Hne Hn]. rewrite !append_cons. simpl.
  destruct (Ascii.eqb_spec a c); [congruence|].
  specialize (IH Hn). pose proof (split_nonempty c (n +:+ t)) as Hs.
  destruct (split c (n +:+ t)) as [|h r]; [congruence|]. simpl in *. rewrite IH. reflexivity.
Qed.

Lemma first_split_none (c : ascii) (s : string) :
  lastIndexOf c s = (-1)%Z -> or_empty (first (split c s)) = s.
Proof. intros H. rewrite (split_none c s H). reflexivity. Qed.

Lemma first_split_sep (c : ascii) (r : string) :
  or_empty (first (split c (String c r))) = "".
Proof. simpl. rewrite Ascii.eqb_refl. reflexivity. Qed.

Lemma append_empty_r (s : string) : s +:+ "" = s.
Proof. induction s as [|a s IH]; [reflexivity|]. rewrite append_cons, IH. reflexivity. Qed.

(** X2. The file part of an address: for a directory prefix that is empty or
    ends in [/], a name without [/], [?] and [#], and a suffix that is
    empty or starts with [?] or [#] and holds no [/], [file_of] gives the
    name. *)
Theorem file_of_strips (dir name suffix : string) :
  dir = "" \/ (exists q, dir = q +:+ "/") ->
  lastIndexOf "/" name = (-1)%Z ->
  lastIndexOf "?" name = (-1)%Z ->
  lastIndexOf "#" name = (-1)%Z ->
  suffix = "" \/ (exists c r, suffix = String c r /\ (c = "?" \/ c = "#")%char) ->
  lastIndexOf "/" suffix = (-1)%Z ->
  file_of (dir +:+ name +:+ suffix) = name.
Proof.
  intros Hdir Hslash Hq Hh Hsuf Hsufslash. unfold file_of.
  assert (Hpop : pop (split "/" (dir +:+ name +:+ suffix)) = Some (name +:+ suffix)).
  { assert (Hrest : pop (split "/" (name +:+ suffix)) = Some (name +:+ suffix)).
    { rewrite (split_none "/" (name +:+ suffix)); [reflexivity|].
      apply lastIndexOf_app_none; assumption. }
    destruct Hdir as [-> | [q ->]]; [rewrite append_nil; exact Hrest|].
    rewrite append_assoc. change ("/" +:+ (name +:+ suffix)) with (String "/" (name +:+ suffix)).
    rewrite pop_split_after_sep. exact Hrest. }
  rewrite Hpop. simpl or_empty at 3.
  destruct Hsuf as [-> | (c & r & -> & [-> | ->])].
  - rewrite append_empty_r, (first_split_none "?" name Hq). apply first_split_none, Hh.
  - rewrite (first_split_app "?" name _ Hq), first_split_sep, append_empty_r.
    apply first_split_none, Hh.
  - rewrite (first_split_app "?" name _ Hq).
    replace (or_empty (first (split "?" (String "#" r))))
      with (String "#" (or_empty (first (split "?" r)))).
    + rewrite (first_split_app "#" name _ Hh), first_split_sep. apply append_empty_r.
    + simpl. pose proof (split_nonempty "?" r) as Hs.
      destruct (split "?" r); [congruence | reflexivity].
Qed.

End Segments.

Lemma file_of_strips_witness :
  file_of ("https://cdn.example.com/lib/" +:+ "core.123.min.css" +:+ "?v=1#top") =
  "core.123.min.css".
Proof.
  apply file_of_strips.
  - right. exists "https://cdn.example.com/lib". reflexivity.
  - reflexivity.
  - reflexivity.
  - reflexivity.
  - right. exists "?"%char, "v=1#top". split; [reflexivity | left; reflexivity].
  - reflexivity.
Defined.

(** ** Stylesheet injection: what a run leaves *)

Section Outdated.

Lemma length_append (a b : string) :
  String.length (a +:+ b) = String.length a + String.length b.
Proof. induction a as [|x a IH]; [reflexivity|]. rewrite append_cons. simpl. rewrite IH. reflexivity. Qed.

Lemma append_cancel_r (a b c : string) : a +:+ c = b +:+ c -> a = b.
Proof.
  revert b. induction a as [|x a IH]; intros [|y b] H.
  - reflexivity.
  - exfalso. apply (f_equal String.length) in H.
    rewrite append_nil, append_cons in H. simpl in H. rewrite length_append in H. lia.
  - exfalso. apply (f_equal String.length) in H.
    rewrite append_nil, append_cons in H. simpl in H. rewrite length_append in H. lia.
  - rewrite !append_cons in H. injection H as -> H. f_equal. apply IH, H.
Qed.

(** X1. The links the first cleanup loop removes: exactly those whose file
    part is [core.min.css], or [core.<hash>.min.css] for a non-empty run of
    lowercase hexadecimal characters other than the current hash. *)
Theorem outdated_iff (l : link) :
  outdated l = true <->
  file_of (or_empty (l_href l)) = "core.min.css" \/
  exists hash, hash <> "" /\ all_hex hash = true /\ hash <> "5c7df4d0" /\
               file_of (or_empty (l_href l)) = "core." +:+ hash +:+ ".min.css".
Proof.
  unfold outdated. set (file := file_of (or_empty (l_href l))).
  rewrite andb_true_iff, negb_true_iff, coreRegex_test_spec. split.
  - intros [[Hplain | (hash & Hne & Hhex & Hfile)] Hcur]; [left; exact Hplain|].
    right. exists hash. repeat split; try assumption.
    intros ->. rewrite Hfile in Hcur. discriminate Hcur.
  - intros [Hplain | (hash & Hne & Hhex & Hcur & Hfile)].
    + split; [left; exact Hplain | rewrite Hplain; reflexivity].
    + split; [right; exists hash; auto|].
      destruct (String.eqb_spec file cssFile) as [Heq | _]; [|reflexivity].
      exfalso. apply Hcur. rewrite Hfile in Heq.
      change cssFile with ("core." +:+ "5c7df4d0" +:+ ".min.css") in Heq.
      apply append_cancel_l in Heq. apply append_cancel_r in Heq. exact Heq.
Qed.

End Outdated.

Section HeadAfter.

Variable B : browser.

Lemma remove_all_filter (P : link -> bool) (h : list link) :
  List.NoDup (List.map lid h) ->
  remove_all (List.filter P h) h = List.filter (fun x => negb (P x)) h.
Proof.
  intros Hnd. unfold remove_all. apply List.filter_ext_in. intros x Hx. f_equal.
  destruct (P x) eqn:HP.
  - apply existsb_lid_self, List.filter_In. auto.
  - apply (existsb_lid_other h); auto.
    + intros r Hr. apply List.filter_In in Hr. tauto.
    + intros Hin. apply List.filter_In in Hin. destruct Hin. congruence.
Qed.

Lemma filter_twice {A} (P Q : A -> bool) (h : list A) :
  List.filter P (List.filter Q h) = List.filter (fun x => Q x && P x) h.
Proof.
  induction h as [|a h IH]; [reflexivity|]. simpl.
  destruct (Q a); simpl; [destruct (P a)|]; rewrite IH; reflexivity.
Qed.

Lemma filter_all {A} (P : A -> bool) (h : list A) :
  (forall x, In x h -> P x = true) -> List.filter P h = h.
Proof.
  induction h as [|a h IH]; [reflexivity|]. simpl.
  intros H. rewrite (H a) by auto. f_equal. apply IH. auto.
Qed.

Lemma head_filter {A} (P : A -> bool) (h : list A) :
  List.head (List.filter P h) = List.find P h.
Proof.
  induction h as [|a h IH]; [reflexivity|]. simpl. destruct (P a); [reflexivity | exact IH].
Qed.

(** the two sweeps leave the links that survive them, in their order *)
Lemma swept_filter (d : document) :
  List.NoDup (List.map lid (head_links d)) ->
  swept B d = List.filter (survives B) (head_links d).
Proof.
  intros Hnd. unfold swept, fallbacks, freshLinks.
  rewrite (remove_all_filter outdated _ Hnd).
  rewrite remove_all_filter by (apply NoDup_lid_filter, Hnd).
  apply filter_twice.
Qed.

(** the duplicate sweep leaves the links that are not hashed, and the first
    hashed one *)
Lemma kept_filter (d : document) (e : link) (rest : list link) :
  List.NoDup (List.map lid (head_links d)) ->
  hashedLinks B d = e :: rest ->
  kept B d = List.filter (fun x => negb (is_hashed B x) || (lid x =? lid e)) (swept B d).
Proof.
  intros Hnd Hh. unfold kept, remove_all. rewrite Hh. simpl List.tl.
  apply List.filter_ext_in. intros x Hx.
  pose proof (swept_NoDup B d Hnd) as Hnds.
  assert (Hnde : List.NoDup (List.map lid (e :: rest))).
  { rewrite <- Hh. apply NoDup_lid_filter, Hnds. }
  destruct (is_hashed B x) eqn:Hx_hashed; simpl.
  - assert (Hin : In x (e :: rest)).
    { rewrite <- Hh. apply List.filter_In. auto. }
    destruct Hin as [<- | Hin].
    + rewrite (hashedLinks_head_not_in_tail B d e rest Hnd Hh), Nat.eqb_refl. reflexivity.
    + rewrite (existsb_lid_self x rest Hin). simpl. symmetry. apply Nat.eqb_neq.
      simpl in Hnde. apply List.NoDup_cons_iff in Hnde as [Hnotin _].
      intros Heq. apply Hnotin. rewrite <- Heq. apply List.in_map, Hin.
  - rewrite (existsb_lid_other (swept B d) rest x Hnds Hx); [reflexivity | |].
    + intros r Hr. apply (hashedLinks_swept B d). rewrite Hh. right. exact Hr.
    + intros Hin. assert (Hin' : In x (hashedLinks B d)) by (rewrite Hh; right; exact Hin).
      apply List.filter_In in Hin'. destruct Hin'. congruence.
Qed.

(** X5. The head after a run, in closed form. In a well-formed document a
    run that returns a link leaves, in their order and unchanged, the links
    that survive the two cleanup sweeps; when one of them has an href
    containing the hashed file name, the first such link is returned and
    the later ones are removed; otherwise a new link is appended after them
    and returned. *)
Theorem injectCss_head_after (w w' : world) (l : link) :
  wf_document (w_doc w) ->
  injectCss B w = (inr (Some l), w') ->
  let h := List.filter (survives B) (head_links (w_doc w)) in
  match List.find (is_hashed B) h with
  | Some e =>
      l = e /\
      head_links (w_doc w') =
        List.filter (fun x => negb (is_hashed B x) || (lid x =? lid e)) h
  | None =>
      l = new_link B (w_doc w) /\ head_links (w_doc w') = h ++ [l]
  end.
Proof.
  intros [Hnd _] Hrun h. apply injectCss_success in Hrun.
  subst h. rewrite <- (swept_filter (w_doc w) Hnd), <- head_filter.
  fold (hashedLinks B (w_doc w)).
  destruct (reconciled_head B _ l _ Hrun) as [(He & Hhead & _) | (Hnone & Hl & Hhead & _)].
  - rewrite He. split; [reflexivity|].
    destruct (hashedLinks B (w_doc w)) as [|e rest] eqn:Hh; [discriminate|].
    injection He as ->. rewrite Hhead. apply (kept_filter _ l rest Hnd Hh).
  - rewrite Hnone. simpl. auto.
Qed.

(** X6. With a DOM whose methods do not throw, injectCss returns a link
    element on every well-formed document, that link is in the head
    afterwards, and the scripts of the document are as they were. *)
Theorem injectCss_returns_attached (w : world) :
  (forall n, faults B n = None) ->
  wf_document (w_doc w) ->
  exists l w',
    injectCss B w = (inr (Some l), w') /\
    In l (head_links (w_doc w')) /\
    currentScript (w_doc w') = currentScript (w_doc w) /\
    scripts (w_doc w') = scripts (w_doc w).
Proof.
  intros Hnone Hwf. destruct (injectCss_no_faults B w Hnone) as (w' & Hrun & _).
  exists (reconciled B (w_doc w)).1, w'. split; [exact Hrun|].
  split; [apply (injectCss_exactly_one B w w' _ Hwf Hrun)|].
  apply injectCss_success in Hrun. apply (reconciled_scripts B _ _ _ Hrun).
Qed.

Lemma basePath_chosen (d : document) : basePath B d = basePath_of (chosen_src B d).
Proof.
  unfold basePath, script_of, chosen_src.
  destruct (currentScript d); [reflexivity|].
  destruct (List.find (is_index_js B) (scripts d)); [reflexivity|].
  destruct (List.find s_data_qorecss (scripts d)); reflexivity.
Qed.

(** X4. The link a run creates. A returned link that was not in the head
    before the run is a stylesheet link appended last, whose href is the
    hashed file name after the base path of the executing script, else of
    the first script whose path ends in [index.js] whatever its marking,
    else of the first script marked [data-qorecss], and the bare file name
    when there is no such script. *)
Theorem injectCss_created_link (w w' : world) (l : link) :
  injectCss B w = (inr (Some l), w') ->
  ~ In l (head_links (w_doc w)) ->
  l_href l = Some (basePath_of (chosen_src B (w_doc w)) +:+ cssFile) /\
  l_rel l = "stylesheet" /\ l_type l = "text/css" /\
  file_of (or_empty (l_href l)) = cssFile /\
  List.last (head_links (w_doc w')) l = l /\
  lid l = next_id (w_doc w).
Proof.
  intros Hrun Hnew. apply injectCss_success in Hrun.
  destruct (reconciled_head B _ l _ Hrun) as [(He & _) | (_ & Hl & Hhead & _)].
  { exfalso. apply Hnew.
    destruct (hashedLinks B (w_doc w)) as [|e rest] eqn:Hh; [discriminate|].
    injection He as ->.
    assert (Hin : In l (hashedLinks B (w_doc w))) by (rewrite Hh; left; reflexivity).
    apply hashedLinks_swept, swept_sound in Hin. tauto. }
  rewrite Hhead, List.last_last. subst l. unfold new_link. simpl.
  rewrite basePath_chosen, file_of_injected.
  repeat (split; [reflexivity|]). reflexivity.
Qed.

End HeadAfter.

Lemma wf_marked_page : wf_document marked_page.
Proof.
  split.
  - simpl. repeat (apply List.NoDup_cons; [simpl; intuition discriminate|]).
    apply List.NoDup_nil.
  - simpl. repeat (apply List.Forall_cons; [simpl; lia|]). apply List.Forall_nil.
Qed.

Lemma injectCss_head_after_witness :
  head_links (w_doc (injectCss plain_browser (loaded crowded_page)).2) =
  [stylesheet 2 "https://example.com/core.extra.css";
   stylesheet 3 "https://example.com/core.5c7df4d0.min.css"].
Proof.
  pose proof (injectCss_head_after plain_browser (loaded crowded_page)
                (injectCss plain_browser (loaded crowded_page)).2
                (stylesheet 3 "https://example.com/core.5c7df4d0.min.css")
                wf_crowded_page ltac:(vm_compute; reflexivity)) as H.
  vm_compute in H. destruct H as [_ H]. exact H.
Defined.

Lemma injectCss_returns_attached_witness :
  exists l w',
    injectCss plain_browser (loaded marked_page) = (inr (Some l), w') /\
    In l (head_links (w_doc w')) /\
    currentScript (w_doc w') = None /\
    scripts (w_doc w') = scripts marked_page.
Proof.
  apply (injectCss_returns_attached plain_browser (loaded marked_page)).
  - reflexivity.
  - exact wf_marked_page.
Defined.

Lemma injectCss_created_link_witness :
  l_href (new_link plain_browser marked_page) =
  Some "https://cdn.other.com/ignore/core.5c7df4d0.min.css".
Proof.
  apply (injectCss_created_link plain_browser (loaded marked_page)
           (injectCss plain_browser (loaded marked_page)).2
           (new_link plain_browser marked_page)).
  - vm_compute. reflexivity.
  - simpl. intros [H | []]. discriminate H.
Defined.

(** ** Stylesheet injection: failed runs, new attempts, loading *)

Section Failure.

Variable B : browser.

Lemma only_removed_refl (d : document) : only_removed d d.
Proof. repeat split; reflexivity. Qed.

Lemma only_removed_trans (d1 d2 d3 : document) :
  only_removed d1 d2 -> only_removed d2 d3 -> only_removed d1 d3.
Proof.
  intros (Hc1 & Hs1 & Hh1) (Hc2 & Hs2 & Hh2). repeat split; try congruence.
  etransitivity; eassumption.
Qed.

Lemma sublist_List_filter {A} (P : A -> bool) (h : list A) : sublist (List.filter P h) h.
Proof.
  induction h as [|a h IH]; simpl; [constructor|].
  destruct (P a); [apply sublist_skip | apply sublist_cons]; exact IH.
Qed.

Lemma removes_only_ret {A} (a : A) : removes_only (ret a).
Proof. intros w. apply only_removed_refl. Qed.

Lemma removes_only_read {A} (f : document -> A) : removes_only (read f).
Proof. intros w. apply only_removed_refl. Qed.

Lemma removes_only_console_log (text : string) : removes_only (console_log text).
Proof. intros w. apply only_removed_refl. Qed.

Lemma removes_only_dom_call {A} (f : document -> A * document) :
  (forall d, only_removed d (f d).2) -> removes_only (dom_call B f).
Proof.
  intros Hf w. unfold dom_call. destruct (faults B (w_steps w)); [apply only_removed_refl|].
  specialize (Hf (w_doc w)). destruct (f (w_doc w)) as [a d]. exact Hf.
Qed.

Lemma removes_only_bind {A C} (m : M A) (k : A -> M C) :
  removes_only m -> (forall a, removes_only (k a)) -> removes_only (bind m k).
Proof.
  intros Hm Hk w. unfold bind. specialize (Hm w).
  destruct (m w) as [[e|a] w1]; [exact Hm|].
  eapply only_removed_trans; [exact Hm | apply Hk].
Qed.

Lemma removes_only_forEach {A} (xs : list A) (body : A -> M unit) :
  (forall x, removes_only (body x)) -> removes_only (forEach xs body).
Proof.
  intros Hb. induction xs as [|x xs IH]; simpl; [apply removes_only_ret|].
  apply removes_only_bind; [apply Hb | intros _; exact IH].
Qed.

Lemma removes_only_fails {A} (m : M A) : removes_only m -> fails_removing m.
Proof. intros Hm w e w' Hrun. specialize (Hm w). rewrite Hrun in Hm. exact Hm. Qed.

Lemma fails_removing_bind {A C} (m : M A) (k : A -> M C) :
  removes_only m -> (forall a, fails_removing (k a)) -> fails_removing (bind m k).
Proof.
  intros Hm Hk w e w'. unfold bind. specialize (Hm w).
  destruct (m w) as [[e1|a] w1].
  - intros [= <- <-]. exact Hm.
  - intros Hrun. eapply only_removed_trans; [exact Hm | eapply Hk, Hrun].
Qed.

Lemma removes_only_remove (l : link) : removes_only (dom_call B (remove l)).
Proof.
  apply removes_only_dom_call. intros d. repeat split; simpl. apply sublist_List_filter.
Qed.

Lemma removes_only_remove_loop (rs : list link) (text : link -> string) :
  removes_only (forEach rs (fun l => dom_call B (remove l) ;; console_log (text l))).
Proof.
  apply removes_only_forEach. intros l.
  apply removes_only_bind; [apply removes_only_remove | intros _; apply removes_only_console_log].
Qed.

Lemma removes_only_find_script : removes_only (find_script B).
Proof.
  unfold find_script.
  apply removes_only_bind; [apply removes_only_read|]. intros scriptEl.
  apply removes_only_bind.
  - destruct scriptEl; [apply removes_only_ret|].
    apply removes_only_bind;
      [apply removes_only_dom_call; intros d; apply only_removed_refl|].
    intros ?; apply removes_only_ret.
  - intros [s|]; [apply removes_only_ret|].
    apply removes_only_dom_call; intros d; apply only_removed_refl.
Qed.

(** the [try] block has only removed links when it throws: a link is
    appended by its last DOM call only, after which nothing throws *)
Lemma injectCss_try_fails_removing : fails_removing (injectCss_try B).
Proof.
  unfold injectCss_try.
  apply fails_removing_bind; [apply removes_only_find_script|]. intros scriptEl.
  apply fails_removing_bind; [apply removes_only_console_log|]. intros _.
  apply fails_removing_bind;
    [apply removes_only_dom_call; intros d; apply only_removed_refl|]. intros links.
  apply fails_removing_bind.
  { apply removes_only_forEach. intros l.
    apply removes_only_bind;
      [apply removes_only_dom_call; intros d; apply only_removed_refl|]. intros a.
    cbv zeta. destruct (_ && _); [|apply removes_only_ret].
    apply removes_only_bind; [apply removes_only_remove | intros _; apply removes_only_console_log]. }
  intros _.
  apply fails_removing_bind;
    [apply removes_only_dom_call; intros d; apply only_removed_refl|]. intros fl.
  apply fails_removing_bind; [apply removes_only_remove_loop|]. intros _.
  apply fails_removing_bind;
    [apply removes_only_dom_call; intros d; apply only_removed_refl|]. intros ls.
  cbv zeta.
  apply fails_removing_bind.
  { destruct (_ <? _)%nat; [apply removes_only_remove_loop | apply removes_only_ret]. }
  intros _.
  destruct (List.head _) as [existing|].
  - apply removes_only_fails.
    apply removes_only_bind; [apply removes_only_console_log | intros _; apply removes_only_ret].
  - apply fails_removing_bind.
    { apply removes_only_dom_call. intros d. repeat split; reflexivity. }
    intros lnk w e w'. unfold bind, dom_call, console_log, ret.
    destruct (faults B (w_steps w)); [|discriminate].
    intros [= <- <-]. apply only_removed_refl.
Qed.

(** X7. A failed run adds nothing. When injectCss returns [undefined] because
    a DOM call threw, the head holds only links that were in it before the
    run, unchanged and in their order, and the scripts of the document are
    as they were: links may have been removed, none has been added. *)
Theorem injectCss_failure_only_removes (w w' : world) :
  injectCss B w = (inr None, w') ->
  only_removed (w_doc w) (w_doc w').
Proof.
  rewrite injectCss_unfold.
  destruct (injectCss_try B (entered w)) as [[err|l] w0] eqn:Htry; [|discriminate].
  intros [= <-]. simpl.
  apply (injectCss_try_fails_removing (entered w) err w0 Htry).
Qed.

End Failure.

Lemma injectCss_failure_only_removes_witness :
  only_removed stale_page
    (w_doc (injectCss append_failing_browser (loaded stale_page)).2).
Proof.
  apply (injectCss_failure_only_removes append_failing_browser (loaded stale_page)).
  vm_compute. reflexivity.
Defined.

Section Retry.

Variable B : browser.

(** an error event on the last link of the head, when it carries its
    handler, gives it the address of the plain stylesheet *)
Lemma dispatch_error_last (h : list link) (l : link) (w1 : world) (bp : string) :
  head_links (w_doc w1) = h ++ [l] ->
  (forall x, In x h -> lid x <> lid l) ->
  l_onerror l = Some (FallbackHandler (lid l) bp) ->
  w_doc (dispatch_error B (lid l) w1).2 =
  Document (currentScript (w_doc w1)) (scripts (w_doc w1))
           (h ++ [Link (lid l) (Some (bp +:+ "qore.css")) (l_rel l) (l_type l) None])
           (next_id (w_doc w1)).
Proof.
  intros Hhead Hother Hon. unfold dispatch_error, bind, read.
  rewrite Hhead, (find_link_last h l Hother), Hon. simpl. f_equal.
  rewrite Hhead.
  apply (map_target_last
    (fun x => Link (lid x) (Some (bp +:+ "qore.css")) (l_rel x) (l_type x) None)), Hother.
Qed.

(** X10. A new attempt after the fallback. When the link a run created has
    fallen back to the plain stylesheet, and the address of that stylesheet
    still contains [qore.css] once resolved, the next run removes the link
    and appends a fresh link to the hashed file, with a fresh handler; the
    other links of the head stay as they were. *)
Theorem injectCss_retries_after_fallback (w w1 w3 : world) (l l3 : link) :
  wf_document (w_doc w) ->
  injectCss B w = (inr (Some l), w1) ->
  ~ In l (head_links (w_doc w)) ->
  includes (resolveURL B (basePath B (w_doc w) +:+ "qore.css")) "qore.css" = true ->
  injectCss B (dispatch_error B (lid l) w1).2 = (inr (Some l3), w3) ->
  l3 = Link (next_id (w_doc w1)) (l_href l) "stylesheet" "text/css"
            (Some (FallbackHandler (next_id (w_doc w1)) (basePath B (w_doc w)))) /\
  head_links (w_doc w3) = List.removelast (head_links (w_doc w1)) ++ [l3].
Proof.
  intros Hwf Hrun Hnew Hplain Hrun3.
  pose proof Hwf as [Hnd Hlt]. rewrite List.Forall_forall in Hlt.
  apply injectCss_success in Hrun.
  destruct (reconciled_head B _ l _ Hrun) as [(He & _) | (Hnone & Hl & Hhead & Hnext)].
  { exfalso. apply Hnew.
    destruct (hashedLinks B (w_doc w)) as [|e rest] eqn:Hh; [discriminate|].
    injection He as ->.
    assert (Hin : In l (hashedLinks B (w_doc w))) by (rewrite Hh; left; reflexivity).
    apply hashedLinks_swept, swept_sound in Hin. tauto. }
  destruct (reconciled_scripts B _ _ _ Hrun) as [Hcs Hss].
  assert (Hother : forall x, In x (swept B (w_doc w)) -> lid x <> lid l).
  { intros x Hx. apply swept_sound in Hx as (Hx & _). apply Hlt in Hx.
    rewrite Hl. simpl. lia. }
  set (plain := Link (lid l) (Some (basePath B (w_doc w) +:+ "qore.css"))
                     (l_rel l) (l_type l) None).
  set (d2 := Document (currentScript (w_doc w1)) (scripts (w_doc w1))
                      (swept B (w_doc w) ++ [plain]) (next_id (w_doc w1))).
  assert (Hd2 : w_doc (dispatch_error B (lid l) w1).2 = d2).
  { apply (dispatch_error_last (swept B (w_doc w)) l w1 (basePath B (w_doc w)) Hhead Hother).
    rewrite Hl. reflexivity. }
  apply injectCss_success in Hrun3. rewrite Hd2 in Hrun3.
  assert (Hnd2 : List.NoDup (List.map lid (head_links d2))).
  { pose proof (wf_reconciled B _ _ _ Hwf Hrun) as [Hnd1 _].
    rewrite Hhead in Hnd1. simpl. rewrite List.map_app in *. exact Hnd1. }
  assert (Hsw : swept B d2 = swept B (w_doc w)).
  { rewrite (swept_filter B d2 Hnd2). simpl. rewrite List.filter_app. simpl.
    assert (Hp : survives B plain = false).
    { unfold survives, is_fallback, href. simpl. rewrite Hplain. apply andb_false_r. }
    rewrite Hp, List.app_nil_r. apply filter_all.
    intros x Hx. apply swept_sound in Hx as (_ & Ho & Hf). unfold survives.
    rewrite Ho, Hf. reflexivity. }
  assert (Hh2 : hashedLinks B d2 = []).
  { unfold hashedLinks. rewrite Hsw. exact Hnone. }
  destruct (reconciled_head B _ l3 _ Hrun3) as [(He & _) | (_ & Hl3 & Hhead3 & _)];
    [rewrite Hh2 in He; discriminate|].
  rewrite Hhead3, Hsw, Hhead, List.removelast_last. split; [|reflexivity].
  rewrite Hl3. unfold new_link. simpl.
  assert (Hbp : basePath B d2 = basePath B (w_doc w)).
  { unfold basePath, script_of. simpl. rewrite Hcs, Hss. reflexivity. }
  rewrite Hbp, Hl. reflexivity.
Qed.

End Retry.

Lemma injectCss_retries_after_fallback_witness :
  let w1 := (injectCss plain_browser (loaded cdn_page)).2 in
  head_links (w_doc (injectCss plain_browser (dispatch_error plain_browser 0 w1).2).2) =
  [Link 1 (Some "https://cdn.example.com/lib/core.5c7df4d0.min.css") "stylesheet" "text/css"
        (Some (FallbackHandler 1 "https://cdn.example.com/lib/"))].
Proof.
  intros w1.
  destruct (injectCss_retries_after_fallback plain_browser (loaded cdn_page) w1
              (injectCss plain_browser (dispatch_error plain_browser 0 w1).2).2
              (new_link plain_browser cdn_page)
              (Link 1 (Some "https://cdn.example.com/lib/core.5c7df4d0.min.css")
                    "stylesheet" "text/css"
                    (Some (FallbackHandler 1 "https://cdn.example.com/lib/"))))
    as [_ H].
  - exact wf_cdn_page.
  - vm_compute. reflexivity.
  - simpl. tauto.
  - vm_compute. reflexivity.
  - vm_compute. reflexivity.
  - rewrite H. vm_compute. reflexivity.
Defined.

Section Loading.

Variable B : browser.

(** X11. Loading the module from a script tag. On a host without [require]
    and with a window, the two paths of the [qorecss] object are the
    relative names themselves, evaluating the module throws nothing, and
    injectCss has run once, whether or not [module.exports] exists. *)
Theorem load_module_script_tag (env : host_env) (has_exports : bool) (w : world) :
  env_require env = None ->
  (safeResolve env "./qore.css").1 = inr "./qore.css" /\
  (safeResolve env "./variables.css").1 = inr "./variables.css" /\
  exists r w',
    injectCss B w = (inr r, w') /\
    load_module env true has_exports B w = (inr BrowserBranch, w').
Proof.
  intros Hreq.
  assert (Hres : forall file, (safeResolve env file).1 = inr file).
  { intros file. unfold safeResolve, native_resolve, missing, fs, fallback_path, path_resolve.
    rewrite Hreq. reflexivity. }
  split; [apply Hres|]. split; [apply Hres|].
  unfold load_module. rewrite !Hres. simpl select_branch. cbv iota.
  unfold bind, ret. rewrite injectCss_unfold.
  destruct (injectCss_try B (entered w)) as [[err|l] w0]; eauto.
Qed.

End Loading.

Lemma load_module_script_tag_witness :
  (safeResolve browser_env "./qore.css").1 = inr "./qore.css" /\
  (safeResolve browser_env "./variables.css").1 = inr "./variables.css" /\
  exists r w',
    injectCss plain_browser (loaded cdn_page) = (inr r, w') /\
    load_module browser_env true false plain_browser (loaded cdn_page) = (inr BrowserBranch, w').
Proof. apply load_module_script_tag. reflexivity. Defined.

(** ** The performance script *)

Section Batches.

Context {T : Type}.
Variable getTime : nat -> request T.
Variables limit count : Z.
Hypothesis Hlimit : (1 <= limit)%Z.

Lemma first_rejection_none (batch : list (request T)) :
  first_rejection batch = None ->
  List.Forall (fun r => exists t, outcome r = inr t) batch.
Proof.
  induction batch as [|r rest IH]; simpl; intros H; [constructor|].
  destruct (outcome r) as [e|t] eqn:Hr.
  - destruct (first_rejection rest) as [[s e']|]; [|discriminate].
    destruct (s <? settles r)%nat; discriminate.
  - constructor; [eauto | apply IH, H].
Qed.

Lemma first_rejection_some (batch : list (request T)) (s : nat) (e : exn) :
  first_rejection batch = Some (s, e) ->
  exists r, In r batch /\ outcome r = inl e.
Proof.
  revert s e. induction batch as [|r rest IH]; simpl; intros s e H; [discriminate|].
  destruct (outcome r) as [e0|t] eqn:Hr.
  - destruct (first_rejection rest) as [[s' e']|] eqn:Hrest.
    + destruct (s' <? settles r)%nat; injection H as <- <-.
      * destruct (IH _ _ eq_refl) as (r' & Hin & Hout). eauto.
      * eauto.
    + injection H as <- <-. eauto.
  - destruct (IH _ _ H) as (r' & Hin & Hout). eauto.
Qed.

Lemma fulfilled_length (batch : list (request T)) :
  List.Forall (fun r => exists t, outcome r = inr t) batch ->
  length (fulfilled batch) = length batch.
Proof.
  induction 1 as [|r rest [t Ht] _ IH]; simpl; [reflexivity|].
  rewrite Ht. simpl. rewrite IH. reflexivity.
Qed.

Lemma fulfilled_app (a b : list (request T)) :
  fulfilled (a ++ b) = fulfilled a ++ fulfilled b.
Proof.
  induction a as [|r a IH]; simpl; [reflexivity|].
  destruct (outcome r); rewrite IH; reflexivity.
Qed.

(** a batch that is awaited: its values when every call fulfils *)
Lemma Promise_all_fulfils (start size : nat) (values : list T) :
  Promise_all (List.map getTime (List.seq start size)) = inr values ->
  values = fulfilled (List.map getTime (List.seq start size)) /\
  length values = size /\
  List.Forall (fun n => exists t, outcome (getTime n) = inr t) (List.seq start size).
Proof.
  unfold Promise_all.
  destruct (first_rejection _) as [[s e]|] eqn:Hf; [discriminate|].
  intros [= <-]. apply first_rejection_none in Hf.
  split; [reflexivity|]. split.
  - rewrite (fulfilled_length _ Hf), List.length_map, List.length_seq. reflexivity.
  - apply List.Forall_forall. intros n Hn. rewrite List.Forall_forall in Hf.
    apply Hf, List.in_map, Hn.
Qed.

(** a batch that is awaited: a rejection is that of one of its calls *)
Lemma Promise_all_rejects (start size : nat) (e : exn) :
  Promise_all (List.map getTime (List.seq start size)) = inl e ->
  exists n, start <= n < start + size /\ outcome (getTime n) = inl e.
Proof.
  unfold Promise_all.
  destruct (first_rejection _) as [[s e']|] eqn:Hf; [|discriminate].
  intros [= <-]. apply first_rejection_some in Hf as (r & Hin & Hout).
  apply List.in_map_iff in Hin as (n & <- & Hn). apply List.in_seq in Hn. eauto.
Qed.

Lemma batches_done (fuel : nat) (i : Z) (issued : list Z) (times : list T) :
  (count <= i)%Z -> batches fuel getTime limit count i issued times = Some (inr times, issued).
Proof.
  intros H. destruct fuel; simpl; destruct (Z.ltb_spec i count); try lia; reflexivity.
Qed.

Lemma schedule_small (c : Z) : (0 < c < limit)%Z -> schedule limit c = [c].
Proof.
  intros H. unfold schedule. rewrite Z.div_small, Z.mod_small by lia.
  destruct (Z.eqb_spec c 0); [lia | reflexivity].
Qed.

Lemma schedule_zero : schedule limit 0 = [].
Proof. unfold schedule. rewrite Z.div_0_l, Z.mod_0_l by lia. reflexivity. Qed.

Lemma schedule_full (c : Z) :
  (limit <= c)%Z -> schedule limit c = limit :: schedule limit (c - limit).
Proof.
  intros H. unfold schedule.
  assert (Hd : (c / limit = (c - limit) / limit + 1)%Z).
  { replace c with ((c - limit) + 1 * limit)%Z at 1 by lia. apply Z.div_add. lia. }
  assert (Hm : (c mod limit = (c - limit) mod limit)%Z).
  { replace c with ((c - limit) + 1 * limit)%Z at 1 by lia. apply Z.mod_add. lia. }
  rewrite Hd, Hm.
  assert (0 <= (c - limit) / limit)%Z by (apply Z.div_pos; lia).
  replace (Z.to_nat ((c - limit) / limit + 1)) with (S (Z.to_nat ((c - limit) / limit))) by lia.
  reflexivity.
Qed.

Lemma total_app (a b : list Z) : total (a ++ b) = (total a + total b)%Z.
Proof. unfold total. induction a as [|x a IH]; simpl; [reflexivity | rewrite IH; lia]. Qed.

Lemma total_repeat (x : Z) (n : nat) : total (List.repeat x n) = (Z.of_nat n * x)%Z.
Proof.
  unfold total. induction n as [|n IH]; [reflexivity|].
  simpl List.repeat. simpl fold_right. rewrite IH. lia.
Qed.

Lemma schedule_total (c : Z) : (0 <= c)%Z -> total (schedule limit c) = c.
Proof.
  intros Hc. unfold schedule. rewrite total_app, total_repeat.
  assert (0 <= c / limit)%Z by (apply Z.div_pos; lia).
  pose proof (Z.div_mod c limit ltac:(lia)) as Hdm.
  destruct (Z.eqb_spec (c mod limit) 0) as [H0 | H0]; unfold total; simpl; lia.
Qed.

Lemma schedule_bounds (c : Z) :
  List.Forall (fun b => 1 <= b <= limit)%Z (schedule limit c).
Proof.
  unfold schedule. apply List.Forall_app. split.
  - apply List.Forall_forall. intros b Hb. apply List.repeat_spec in Hb. lia.
  - pose proof (Z.mod_pos_bound c limit ltac:(lia)).
    destruct (Z.eqb_spec (c mod limit) 0); [constructor|].
    repeat constructor; lia.
Qed.

(** the loop from any of its states: it ends; when every call fulfils, the
    whole schedule has been issued and the times are those of the calls in
    their order; otherwise the batches issued are an initial part of the
    schedule and the error is that of a call of the last of them *)
Lemma batches_run (fuel : nat) (i : Z) (issued : list Z) (times : list T) :
  (i <= count)%Z -> i = Z.of_nat (length times) -> Z.to_nat (count - i) <= fuel ->
  exists r more,
    batches fuel getTime limit count i issued times = Some (r, issued ++ more) /\
    match r with
    | inr ts =>
        more = schedule limit (count - i) /\
        ts = times ++ fulfilled (List.map getTime
                                   (List.seq (length times) (Z.to_nat (count - i)))) /\
        List.Forall (fun n => exists t, outcome (getTime n) = inr t)
                    (List.seq (length times) (Z.to_nat (count - i)))
    | inl e =>
        exists before b rest n,
          more = before ++ [b] /\
          schedule limit (count - i) = more ++ rest /\
          (i + total before <= Z.of_nat n < i + total before + b)%Z /\
          outcome (getTime n) = inl e
    end.
Proof.
  revert i issued times. induction fuel as [|fuel IH]; intros i issued times Hi Hlen Hfuel.
  - assert (i = count) as -> by lia. rewrite batches_done by lia.
    exists (inr times), []. rewrite List.app_nil_r, Z.sub_diag, schedule_zero.
    simpl. rewrite List.app_nil_r. repeat split. constructor.
  - simpl. destruct (Z.ltb_spec i count) as [Hlt | Hge].
    + destruct (Z_lt_le_dec (count - i) limit) as [Hsmall | Hbig].
      * rewrite Z.min_r by lia.
        destruct (Promise_all _) as [e | values] eqn:Hbatch.
        -- apply Promise_all_rejects in Hbatch as (n & Hn & Hout).
           exists (inl e), [(count - i)%Z]. split; [reflexivity|].
           exists [], (count - i)%Z, [], n. rewrite schedule_small by lia.
           repeat split; try assumption; unfold total; simpl; lia.
        -- apply Promise_all_fulfils in Hbatch as (-> & _ & Hall).
           rewrite batches_done by lia.
           exists (inr (times ++ fulfilled (List.map getTime
                          (List.seq (length times) (Z.to_nat (count - i)))))),
                  [(count - i)%Z].
           rewrite schedule_small by lia. repeat split. exact Hall.
      * rewrite Z.min_l by lia.
        destruct (Promise_all _) as [e | values] eqn:Hbatch.
        -- apply Promise_all_rejects in Hbatch as (n & Hn & Hout).
           exists (inl e), [limit]. split; [reflexivity|].
           exists [], limit, (schedule limit (count - i - limit)), n.
           rewrite (schedule_full (count - i)) by lia.
           repeat split; try assumption; unfold total; simpl; lia.
        -- apply Promise_all_fulfils in Hbatch as (-> & Hsize & Hall).
           set (values := fulfilled (List.map getTime (List.seq (length times) (Z.to_nat limit)))) in *.
           assert (Hlen' : (i + limit)%Z = Z.of_nat (length (times ++ values))).
           { rewrite List.length_app, Hsize. lia. }
           destruct (IH (i + limit)%Z (issued ++ [limit]) (times ++ values))
             as (r & more & Hrun & Hr); [lia | exact Hlen' | lia |].
           exists r, (limit :: more). split.
           { rewrite Hrun, <- List.app_assoc. reflexivity. }
           assert (Hcut : Z.to_nat (count - i) = Z.to_nat limit + Z.to_nat (count - (i + limit)))
             by lia.
           assert (Hnext : length (times ++ values) = length times + Z.to_nat limit)
             by (rewrite List.length_app, Hsize; reflexivity).
           replace (count - i - limit)%Z with (count - (i + limit))%Z in * by lia.
           destruct r as [e | ts].
           ++ destruct Hr as (before & b & rest & n & -> & Hsched & Hn & Hout).
              exists (limit :: before), b, rest, n.
              rewrite (schedule_full (count - i)) by lia.
              replace (count - i - limit)%Z with (count - (i + limit))%Z by lia.
              rewrite Hsched. repeat split; try assumption.
              ** change (total (limit :: before)) with (limit + total before)%Z. lia.
              ** change (total (limit :: before)) with (limit + total before)%Z. lia.
           ++ destruct Hr as (-> & -> & Hall').
              rewrite (schedule_full (count - i)) by lia.
              replace (count - i - limit)%Z with (count - (i + limit))%Z by lia.
              rewrite Hcut, List.seq_app, List.map_app, fulfilled_app, Hnext.
              rewrite <- List.app_assoc. repeat split.
              apply List.Forall_app. split; [exact Hall | rewrite <- Hnext; exact Hall'].
    + assert (i = count) as -> by lia.
      exists (inr times), []. rewrite List.app_nil_r, Z.sub_diag, schedule_zero.
      simpl. rewrite List.app_nil_r. repeat split. constructor.
Qed.

End Batches.

Section MeasureUrl.

Context {T : Type}.
Variable N : numbers T.
Variable getTime : nat -> request T.

(** X12. The batches of measureUrl. For a queue limit of at least one and a
    positive count the validation passes and the loop ends after at most
    [count] iterations. The batches issued are an initial part of the
    schedule, [count / QUEUE_LIMIT] full batches then the remainder when
    there is one, and each holds between one and [QUEUE_LIMIT] requests.
    When measureUrl returns, the whole schedule has been issued, [count]
    requests in all, every one of them has fulfilled, and the result is the
    sum of their times, in the order of the calls, divided by [count]. When
    it throws, the error is the rejection of a request of the last batch
    issued, and no later batch is issued. *)
Theorem measureUrl_batches (fuel : nat) (QUEUE_LIMIT count : Z) :
  (1 <= QUEUE_LIMIT)%Z -> (1 <= count)%Z -> Z.to_nat count <= fuel ->
  exists r issued,
    measureUrl N fuel getTime QUEUE_LIMIT count = Some (r, issued) /\
    (exists rest, schedule QUEUE_LIMIT count = issued ++ rest) /\
    List.Forall (fun b => 1 <= b <= QUEUE_LIMIT)%Z issued /\
    match r with
    | inr avg =>
        issued = schedule QUEUE_LIMIT count /\
        total issued = count /\
        List.Forall (fun n => exists t, outcome (getTime n) = inr t)
                    (List.seq 0 (Z.to_nat count)) /\
        avg = n_div N
                (List.fold_left (n_add N)
                   (fulfilled (List.map getTime (List.seq 0 (Z.to_nat count)))) (n_zero N))
                (n_of_nat N (Z.to_nat count))
    | inl e =>
        exists n,
          (total (List.removelast issued) <= Z.of_nat n < total issued)%Z /\
          outcome (getTime n) = inl e
    end.
Proof.
  intros Hlimit Hcount Hfuel. unfold measureUrl.
  destruct (Z.leb_spec count 0) as [|_]; [lia|].
  destruct (batches_run getTime QUEUE_LIMIT count Hlimit fuel 0 [] [])
    as (r & more & Hrun & Hr); [lia | reflexivity | rewrite Z.sub_0_r; exact Hfuel |].
  rewrite Hrun, Z.sub_0_r in *. simpl List.app in *. simpl length in *.
  pose proof (schedule_bounds QUEUE_LIMIT Hlimit count) as Hbounds.
  destruct r as [e | ts].
  - destruct Hr as (before & b & rest & n & -> & Hsched & Hn & Hout).
    exists (inl e), (before ++ [b]). split; [reflexivity|].
    split; [exists rest; exact Hsched|]. split.
    + rewrite Hsched in Hbounds. apply List.Forall_app in Hbounds. tauto.
    + exists n. rewrite List.removelast_last, (total_app before [b]).
      assert (Hone : total [b] = b) by (unfold total; simpl; lia).
      rewrite Hone. split; [lia | exact Hout].
  - destruct Hr as (-> & -> & Hall).
    assert (Hlen : length (fulfilled (List.map getTime (List.seq 0 (Z.to_nat count))))
                   = Z.to_nat count).
    { rewrite fulfilled_length; [rewrite List.length_map, List.length_seq; reflexivity|].
      apply List.Forall_forall. intros x Hx. apply List.in_map_iff in Hx as (n & <- & Hn).
      rewrite List.Forall_forall in Hall. apply Hall, Hn. }
    eexists (inr _), _. split; [reflexivity|].
    split; [exists []; rewrite List.app_nil_r; reflexivity|].
    split; [exact Hbounds|]. split; [reflexivity|].
    split; [apply schedule_total; [exact Hlimit | lia]|].
    split; [exact Hall|].
    rewrite Hlen.
    destruct (Z.ltb_spec 0 count); [|lia].
    destruct (Nat.ltb_spec 0 (Z.to_nat count)); [|lia]. reflexivity.
Qed.

(** X13. The request count of run: whatever the arguments, for a concurrency
    limit of at least one the count is between one and the smaller of 1000
    and the limit, so the validation of measureUrl never rejects it: for a
    queue limit of at least one measureUrl ends, has issued exactly that
    many requests when it returns, and throws only the rejection of one of
    its requests. *)
Theorem requestCount_accepted (MAX_CONCURRENCY QUEUE_LIMIT : Z) (argv : list string) :
  (1 <= MAX_CONCURRENCY)%Z -> (1 <= QUEUE_LIMIT)%Z ->
  (1 <= requestCount MAX_CONCURRENCY argv <= Z.min 1000 MAX_CONCURRENCY)%Z /\
  exists r issued,
    measureUrl N 1000 getTime QUEUE_LIMIT (requestCount MAX_CONCURRENCY argv) =
      Some (r, issued) /\
    match r with
    | inr _ => total issued = requestCount MAX_CONCURRENCY argv
    | inl e => exists n, outcome (getTime n) = inl e
    end.
Proof.
  intros Hmax Hq.
  assert (Hb : (1 <= requestCount MAX_CONCURRENCY argv <= Z.min 1000 MAX_CONCURRENCY)%Z).
  { unfold requestCount.
    destruct (parseInt _) as [n|]; cbv zeta.
    - destruct (Z.ltb_spec n 1), (Z.ltb_spec 1000 n); simpl;
        match goal with |- context [(MAX_CONCURRENCY <? ?x)%Z] =>
          destruct (Z.ltb_spec MAX_CONCURRENCY x) end; lia.
    - match goal with |- context [(MAX_CONCURRENCY <? ?x)%Z] =>
        destruct (Z.ltb_spec MAX_CONCURRENCY x) end; lia. }
  split; [exact Hb|].
  set (count := requestCount MAX_CONCURRENCY argv) in *. unfold measureUrl.
  destruct (Z.leb_spec count 0) as [|_]; [lia|].
  destruct (batches_run getTime QUEUE_LIMIT count Hq 1000 0 [] [])
    as (r & more & Hrun & Hr); [lia | reflexivity | lia |].
  rewrite Hrun, Z.sub_0_r in *. simpl List.app in *.
  destruct r as [e | ts].
  - destruct Hr as (before & b & rest & n & _ & _ & _ & Hout).
    exists (inl e), more. split; [reflexivity | exists n; exact Hout].
  - destruct Hr as (-> & _ & _). eexists (inr _), _. split; [reflexivity|].
    apply schedule_total; [exact Hq | lia].
Qed.

End MeasureUrl.

Lemma measureUrl_batches_witness :
  measureUrl whole_numbers 12 eighth_fails 5 12 = Some (inl (Error "ETIMEDOUT"), [5; 5]%Z) /\
  measureUrl whole_numbers 12 steady 5 12 = Some (inr 100%Z, [5; 5; 2]%Z).
Proof.
  destruct (measureUrl_batches whole_numbers eighth_fails 12 5 12) as (r1 & i1 & H1 & _);
    [lia | lia | lia |].
  destruct (measureUrl_batches whole_numbers steady 12 5 12) as (r2 & i2 & H2 & _);
    [lia | lia | lia |].
  split; [rewrite H1 | rewrite H2]; [clear H2 | clear H1].
  - vm_compute in H1. injection H1 as <- <-. reflexivity.
  - vm_compute in H2. injection H2 as <- <-. reflexivity.
Defined.

Lemma requestCount_accepted_witness :
  (1 <= requestCount 50 ["--json"; "12"] <= Z.min 1000 50)%Z /\
  exists r issued,
    measureUrl whole_numbers 1000 steady 5 (requestCount 50 ["--json"; "12"]) =
      Some (r, issued) /\
    match r with
    | inr _ => total issued = requestCount 50 ["--json"; "12"]
    | inl e => exists n, outcome (steady n) = inl e
    end.
Proof. apply (requestCount_accepted whole_numbers steady 50 5); lia. Defined.

Section BuildHash.

Lemma is_hex_not_space (c : ascii) : is_hex c = true -> is_space c = false.
Proof. destruct c as [[] [] [] [] [] [] [] []]; (reflexivity || discriminate). Qed.

Lemma trimEnd_spaces (ws : string) : all_space ws = true -> trimEnd ws = "".
Proof.
  induction ws as [|c ws IH]; [reflexivity|]. simpl.
  intros H. apply andb_true_iff in H as [Hc Hws]. rewrite (IH Hws), Hc. reflexivity.
Qed.

Lemma trimEnd_hex_app (h ws : string) :
  all_hex h = true -> all_space ws = true -> trimEnd (h +:+ ws) = h.
Proof.
  intros Hh Hws. induction h as [|c h IH]; [rewrite append_nil; apply trimEnd_spaces, Hws|].
  simpl in Hh. apply andb_true_iff in Hh as [Hc Hh].
  rewrite append_cons. simpl. rewrite (IH Hh), (is_hex_not_space c Hc), andb_false_r.
  reflexivity.
Qed.

Lemma trimEnd_app (s t : string) :
  trimEnd t <> "" -> trimEnd (s +:+ t) = s +:+ trimEnd t.
Proof.
  intros Ht. induction s as [|c s IH]; [rewrite !append_nil; reflexivity|].
  rewrite !append_cons. simpl. rewrite IH.
  destruct (String.eqb_spec (s +:+ trimEnd t) "") as [He | _]; [|reflexivity].
  exfalso. destruct s; [rewrite append_nil in He; congruence | discriminate He].
Qed.

Lemma trimStart_spaces_app (ws s : string) :
  all_space ws = true -> trimStart (ws +:+ s) = trimStart s.
Proof.
  induction ws as [|c ws IH]; [rewrite append_nil; reflexivity|].
  intros H. simpl in H. apply andb_true_iff in H as [Hc Hws].
  rewrite append_cons. simpl. rewrite Hc. apply IH, Hws.
Qed.

Lemma trimStart_hex (h : string) : all_hex h = true -> trimStart h = h.
Proof.
  destruct h as [|c h]; [reflexivity|]. simpl. intros H.
  apply andb_true_iff in H as [Hc _]. rewrite (is_hex_not_space c Hc). reflexivity.
Qed.

Lemma trim_padded (ws1 h ws2 : string) :
  all_space ws1 = true -> all_hex h = true -> all_space ws2 = true ->
  trim (ws1 +:+ h +:+ ws2) = h.
Proof.
  intros H1 Hh H2. unfold trim. destruct h as [|c h].
  - rewrite append_nil. rewrite trimEnd_spaces; [reflexivity|].
    clear Hh. induction ws1 as [|a ws1 IH]; [rewrite append_nil; exact H2|].
    simpl in H1. apply andb_true_iff in H1 as [Ha H1].
    rewrite append_cons. simpl. rewrite Ha. apply IH, H1.
  - rewrite trimEnd_app; rewrite (trimEnd_hex_app _ ws2 Hh H2); [|discriminate].
    rewrite (trimStart_spaces_app _ _ H1). apply trimStart_hex, Hh.
Qed.

(** X15. readBuildHash never throws and resolves to the empty string or to
    eight lowercase hexadecimal characters: to the trimmed content of the
    record when that is such a hash, and to the empty string for any other
    content and for any read error. *)
Theorem readBuildHash_valid (file : read_result) :
  ((readBuildHash file).1 = "" \/ hashRegex_test (readBuildHash file).1 = true) /\
  (forall h, h <> "" ->
     ((readBuildHash file).1 = h <->
      exists data, file = Content data /\ trim data = h /\ hashRegex_test h = true)).
Proof.
  split.
  - destruct file as [data | code err]; simpl; [|left; reflexivity].
    destruct (hashRegex_test (trim data)) eqn:Ht; simpl; auto.
  - intros h Hne. split.
    + destruct file as [data | code err]; simpl; [|congruence].
      destruct (hashRegex_test (trim data)) eqn:Ht; simpl; [|congruence].
      intros <-. exists data. auto.
    + intros (data & -> & <- & Ht). simpl. rewrite Ht. reflexivity.
Qed.

(** X16. White space around the recorded hash does not matter: a record that
    holds eight lowercase hexadecimal characters, with any white space
    before and after them, is read as these characters, and nothing is
    reported. *)
Theorem readBuildHash_trims (ws1 h ws2 : string) :
  all_space ws1 = true -> hashRegex_test h = true -> all_space ws2 = true ->
  readBuildHash (Content (ws1 +:+ h +:+ ws2)) = (h, []).
Proof.
  intros H1 Hh H2. unfold readBuildHash.
  assert (Hhex : all_hex h = true) by (apply andb_true_iff in Hh; tauto).
  rewrite (trim_padded ws1 h ws2 H1 Hhex H2), Hh. reflexivity.
Qed.

(** X17. The file run measures is in the family of the injected stylesheet:
    whatever the build record holds, the name is [core.min.css] or
    [core.<hash>.min.css] for the eight hexadecimal characters read, and
    the pattern of index.js for core files accepts it. *)
Theorem fileName_core_family (file : read_result) :
  coreRegex_test (fileName (readBuildHash file).1) = true /\
  (fileName (readBuildHash file).1 = "core.min.css" \/
   exists h, hashRegex_test h = true /\ (readBuildHash file).1 = h /\
             fileName (readBuildHash file).1 = "core." +:+ h +:+ ".min.css").
Proof.
  assert (Hcases : (readBuildHash file).1 = "" \/ hashRegex_test (readBuildHash file).1 = true).
  { destruct file as [data | code err]; simpl; [|left; reflexivity].
    destruct (hashRegex_test (trim data)) eqn:Ht; simpl; auto. }
  destruct Hcases as [-> | Hh]; [split; [reflexivity | left; reflexivity]|].
  set (h := (readBuildHash file).1) in *.
  assert (Hne : h <> "") by (intros E; rewrite E in Hh; discriminate).
  assert (Hname : fileName h = "core." +:+ h +:+ ".min.css").
  { unfold fileName. destruct (String.eqb_spec h ""); [congruence | reflexivity]. }
  split.
  - rewrite Hname. apply coreRegex_test_spec. right. exists h.
    apply andb_true_iff in Hh. tauto.
  - right. exists h. auto.
Qed.

End BuildHash.

Lemma readBuildHash_trims_witness :
  readBuildHash (Content ("  " +:+ "5c7df4d0" +:+ LF)) = ("5c7df4d0", []).
Proof. apply readBuildHash_trims; reflexivity. Defined.

Section Arguments.

Lemma existsb_json_app (pre post : list string) :
  ~ In "--json" pre -> ~ In "--json" post ->
  jsonFlag (pre ++ post) = false.
Proof.
  intros Hpre Hpost. unfold jsonFlag.
  destruct (existsb _ _) eqn:He; [|reflexivity].
  apply List.existsb_exists in He as (x & Hx & Heq). apply String.eqb_eq in Heq. subst x.
  apply List.in_app_iff in Hx. tauto.
Qed.

Lemma splice_first_app (x : string) (pre post : list string) :
  ~ In x pre -> splice_first x (pre ++ x :: post) = pre ++ post.
Proof.
  induction pre as [|a pre IH]; simpl; intros H.
  - rewrite String.eqb_refl. reflexivity.
  - destruct (String.eqb_spec a x) as [-> | _]; [tauto|]. f_equal. apply IH. tauto.
Qed.

(** X14. The place of the [--json] flag does not matter: with the flag
    anywhere among arguments that do not hold it a second time, run sees
    the flag and takes its request count from the other arguments, as if
    the flag were not there. *)
Theorem requestCount_json_anywhere (MAX_CONCURRENCY : Z) (pre post : list string) :
  ~ In "--json" pre -> ~ In "--json" post ->
  jsonFlag (pre ++ "--json" :: post) = true /\
  requestCount MAX_CONCURRENCY (pre ++ "--json" :: post) =
  requestCount MAX_CONCURRENCY (pre ++ post).
Proof.
  intros Hpre Hpost.
  assert (Hflag : jsonFlag (pre ++ "--json" :: post) = true).
  { unfold jsonFlag. apply List.existsb_exists. exists "--json".
    split; [apply List.in_app_iff; right; left; reflexivity | reflexivity]. }
  split; [exact Hflag|]. unfold requestCount.
  rewrite Hflag, (existsb_json_app pre post Hpre Hpost), (splice_first_app _ pre post Hpre).
  reflexivity.
Qed.

End Arguments.

Lemma requestCount_json_anywhere_witness :
  jsonFlag (["7"] ++ "--json" :: []) = true /\
  requestCount 50 (["7"] ++ "--json" :: []) = requestCount 50 (["7"] ++ []).
Proof.
  apply requestCount_json_anywhere.
  - intros [H | []]. discriminate H.
  - intros [].
Defined.

Section History.

Context {A : Type}.

(** X18. The history run writes is bounded: it holds at most [HISTORY_MAX]
    entries, the new entry is its last one, and it is the end of the old
    history followed by the new entry, from which only the oldest entries
    are dropped and none as long as there is room. *)
Theorem history_bounded (old : list A) (entry : A) :
  length (history old entry) = Nat.min HISTORY_MAX (S (length old)) /\
  List.last (history old entry) entry = entry /\
  (exists dropped, old ++ [entry] = dropped ++ history old entry /\
     length dropped = S (length old) - HISTORY_MAX).
Proof.
  unfold history.
  assert (Hlen : length (old ++ [entry]) = S (length old))
    by (rewrite List.length_app; simpl; lia).
  rewrite Hlen. destruct (Nat.ltb_spec HISTORY_MAX (S (length old))) as [Hbig | Hsmall].
  - split; [|split].
    + rewrite List.length_skipn, Hlen. unfold HISTORY_MAX in *. lia.
    + rewrite List.skipn_app.
      replace (S (length old) - HISTORY_MAX - length old) with 0
        by (unfold HISTORY_MAX in *; lia).
      simpl. apply List.last_last.
    + exists (List.firstn (S (length old) - HISTORY_MAX) (old ++ [entry])).
      split; [symmetry; apply List.firstn_skipn|].
      rewrite List.length_firstn, Hlen. lia.
  - split; [|split].
    + rewrite Hlen. lia.
    + apply List.last_last.
    + exists []. split; [reflexivity|]. change (length (@nil A)) with 0. lia.
Qed.

End History.
